(** * The instrumented sorting engine of [backend/src/utils/sortingAlgorithms.js]

    A shallow embedding of the [SortingAlgorithms] class: the four
    executors ([bubbleSort], [quickSort], [selectionSort], [insertionSort])
    and the dispatcher [sort], followed by the properties of the traces
    they produce.

    Conventions.
    - Array elements, indices and loop counters are JavaScript numbers that
      hold integers; they are modelled as [Z].  Counters that are only ever
      incremented ([comparisonCount]) are [nat].
    - [Date.now()] and the [logger] calls are not modelled: the field
      [executionTime] of a result bundle is left out.
    - The first part works on array *values* (an array is a [list Z]; the
      spread copy [[...a]] is the identity).  The module [Heap] further down
      repeats the class over a store of array objects, with allocation,
      aliasing and in-place writes, and is proved to compute the same
      bundles. *)

From Stdlib Require Import ZArith List Lia String Ascii Sorted Permutation Bool.
From stdpp Require Import base option list sorting.
From Equations Require Import Equations.
Import ListNotations.

Local Open Scope Z_scope.

(** ** Arrays *)

(** [a.length] *)
Definition len (a : list Z) : Z := Z.of_nat (length a).

(** [a[i]], for an index inside the array.  (Outside, JavaScript yields
    [undefined]; the executors never read there, see [sort_refines].) *)
Definition get (a : list Z) (i : Z) : Z := default 0 (a !! Z.to_nat i).

(** [a[i] = v], for an index inside the array.  (Outside, JavaScript
    grows the array; the executors never write there, see [sort_refines].) *)
Definition set (a : list Z) (i v : Z) : list Z := <[Z.to_nat i := v]> a.

(** [[a[i], a[j]] = [a[j], a[i]]]: the right-hand side is evaluated first,
    then the two elements are assigned from left to right. *)
Definition swap (a : list Z) (i j : Z) : list Z :=
  let t0 := get a j in
  let t1 := get a i in
  set (set a i t0) j t1.

(** ** Steps, result bundles and the local variables of an executor *)

Module Step.
Record t : Type := mk
  { array : list Z;
    swapIndices : option (Z * Z);
    comparisonCount : nat }.
End Step.

Module Result.
Record t : Type := mk
  { steps : list Step.t;
    sortedArray : list Z;
    algorithmType : string;
    totalComparisons : nat }.
End Result.

(** The three locals every executor declares: [steps], [sortedArray] and
    [comparisonCount]. *)
Module Locals.
Record t : Type := mk
  { steps : list Step.t;
    sortedArray : list Z;
    comparisonCount : nat }.
End Locals.

(** The prologue shared by the executors:
    [const steps = []; const sortedArray = [...arr]; let comparisonCount = 0;
     steps.push({ array: [...sortedArray], swapIndices: null, comparisonCount })] *)
Definition prologue (arr : list Z) : Locals.t :=
  let steps := [] in
  let sortedArray := arr in
  let comparisonCount := 0%nat in
  Locals.mk (steps ++ [Step.mk sortedArray None comparisonCount])
            sortedArray comparisonCount.

(** [comparisonCount++] *)
Definition tick (st : Locals.t) : Locals.t :=
  Locals.mk (Locals.steps st) (Locals.sortedArray st)
            (S (Locals.comparisonCount st)).

(** [steps.push({ array: [...sortedArray], swapIndices: [i, j], comparisonCount })] *)
Definition push (st : Locals.t) (i j : Z) : Locals.t :=
  Locals.mk
    (Locals.steps st ++
       [Step.mk (Locals.sortedArray st) (Some (i, j)) (Locals.comparisonCount st)])
    (Locals.sortedArray st) (Locals.comparisonCount st).

(** An in-place update of [sortedArray]. *)
Definition update (f : list Z -> list Z) (st : Locals.t) : Locals.t :=
  Locals.mk (Locals.steps st) (f (Locals.sortedArray st))
            (Locals.comparisonCount st).

(** The epilogue: [return { steps, sortedArray, executionTime, algorithmType,
    totalComparisons: comparisonCount }] *)
Definition epilogue (algorithmType : string) (st : Locals.t) : Result.t :=
  Result.mk (Locals.steps st) (Locals.sortedArray st) algorithmType
            (Locals.comparisonCount st).

(** ** Loops *)

(** [for (let j = lo; j < hi; j++) body]: the body neither assigns [j] nor
    changes the bound (the bounds of the executors are [sortedArray.length]
    minus a constant, and the in-place writes keep the length, see
    [len_set]), so the loop runs [hi - lo] times, or not at all. *)
Fixpoint iterate {S : Type} (n : nat) (j : Z) (body : Z -> S -> S) (s : S) : S :=
  match n with
  | O => s
  | Datatypes.S n' => iterate n' (j + 1) body (body j s)
  end.

Definition for_range {S : Type} (lo hi : Z) (body : Z -> S -> S) (s : S) : S :=
  iterate (Z.to_nat (hi - lo)) lo body s.

(** ** bubbleSort *)

(** The body of the inner loop; the loop carries the flag [swapped]. *)
Definition bubble_body (j : Z) (s : bool * Locals.t) : bool * Locals.t :=
  let '(swapped, st) := s in
  let st := tick st in
  if get (Locals.sortedArray st) j >? get (Locals.sortedArray st) (j + 1) then
    let st := update (fun a => swap a j (j + 1)) st in
    let swapped := true in
    (swapped, push st j (j + 1))
  else (swapped, st).

(** One iteration of the outer loop, up to the test of [swapped]. *)
Definition bubble_pass (i : Z) (st : Locals.t) : bool * Locals.t :=
  let swapped := false in
  for_range 0 (len (Locals.sortedArray st) - 1 - i) bubble_body (swapped, st).

(** [for (let i = 0; i < sortedArray.length - 1; i++) { ...; if (!swapped) break; }],
    with [n] iterations left. *)
Fixpoint bubble_outer (n : nat) (i : Z) (st : Locals.t) : Locals.t :=
  match n with
  | O => st
  | Datatypes.S n' =>
      let '(swapped, st) := bubble_pass i st in
      if negb swapped then st else bubble_outer n' (i + 1) st
  end.

Definition bubbleSort (arr : list Z) : Result.t :=
  let st := prologue arr in
  let st := bubble_outer (Z.to_nat (len (Locals.sortedArray st) - 1 - 0)) 0 st in
  epilogue "bubble" st.


(** ** selectionSort *)

(** The body of the inner loop; the loop carries [minIndex]. *)
Definition selection_body (j : Z) (s : Z * Locals.t) : Z * Locals.t :=
  let '(minIndex, st) := s in
  let st := tick st in
  if get (Locals.sortedArray st) j <? get (Locals.sortedArray st) minIndex
  then (j, st)
  else (minIndex, st).

(** The body of the outer loop. *)
Definition selection_pass (i : Z) (st : Locals.t) : Locals.t :=
  let minIndex := i in
  let '(minIndex, st) :=
    for_range (i + 1) (len (Locals.sortedArray st)) selection_body (minIndex, st) in
  if negb (minIndex =? i) then
    let st := update (fun a => swap a i minIndex) st in
    push st i minIndex
  else st.

Definition selectionSort (arr : list Z) : Result.t :=
  let st := prologue arr in
  let st := for_range 0 (len (Locals.sortedArray st) - 1) selection_pass st in
  epilogue "selection" st.

(** ** insertionSort *)

(** [while (j >= 0) { comparisonCount++; if (sortedArray[j] > key) { ...; j--; }
    else break; }].  The loop variable only decreases, from [i - 1 >= 0]; the
    recursion is on [k = j + 1], so [k = 0] is the exit through [j >= 0]
    being false.  The loop returns the final value of [j]. *)
Fixpoint insertion_while (k : nat) (key : Z) (st : Locals.t) : Z * Locals.t :=
  match k with
  | O => (-1, st)
  | Datatypes.S k' =>
      let j := Z.of_nat k' in
      let st := tick st in
      if get (Locals.sortedArray st) j >? key then
        let st := update (fun a => set a (j + 1) (get a j)) st in
        let st := push st j (j + 1) in
        insertion_while k' key st
      else (j, st)
  end.

(** The body of the outer loop. *)
Definition insertion_pass (i : Z) (st : Locals.t) : Locals.t :=
  let key := get (Locals.sortedArray st) i in
  let j := i - 1 in
  let '(j, st) := insertion_while (Z.to_nat (j + 1)) key st in
  let st := update (fun a => set a (j + 1) key) st in
  if negb (j + 1 =? i) then push st (j + 1) i else st.

Definition insertionSort (arr : list Z) : Result.t :=
  let st := prologue arr in
  let st := for_range 1 (len (Locals.sortedArray st)) insertion_pass st in
  epilogue "insertion" st.

(** ** quickSort *)

(** The body of the loop of [partition]; the loop carries [i]. *)
Definition partition_body (pivot : Z) (j : Z) (s : Z * Locals.t) : Z * Locals.t :=
  let '(i, st) := s in
  let st := tick st in
  if get (Locals.sortedArray st) j <? pivot then
    let i := i + 1 in
    if negb (i =? j) then
      let st := update (fun a => swap a i j) st in
      (i, push st i j)
    else (i, st)
  else (i, st).

(** [partition(array, low, high)]: [array] is always the executor's
    [sortedArray], and [steps] and [comparisonCount] are captured by the
    closure, so the function maps locals to locals and returns [i + 1]. *)
Definition partition (st : Locals.t) (low high : Z) : Z * Locals.t :=
  let pivot := get (Locals.sortedArray st) high in
  let i := low - 1 in
  let '(i, st) := for_range low high (partition_body pivot) (i, st) in
  let st :=
    if negb (i + 1 =? high) then
      let st := update (fun a => swap a (i + 1) high) st in
      push st (i + 1) high
    else st in
  (i + 1, st).

(** The index [partition] returns lies in [[low, high]]: each iteration
    advances [i] by at most one.  This is what makes the recursion of
    [quickSortHelper] terminate. *)
Lemma partition_body_index pivot j i st :
  i <= fst (partition_body pivot j (i, st)) <= i + 1.
Proof.
  unfold partition_body.
  destruct (_ <? pivot); [destruct (negb _)|]; simpl; lia.
Qed.

Lemma partition_loop_index pivot n j s :
  fst s <= fst (iterate n j (partition_body pivot) s) <= fst s + Z.of_nat n.
Proof.
  revert j s. induction n as [|n IH]; intros j [i st]; cbn [iterate].
  - simpl. lia.
  - specialize (IH (j + 1) (partition_body pivot j (i, st))).
    pose proof (partition_body_index pivot j i st). cbn [fst] in *. lia.
Qed.

Lemma partition_index st low high :
  low < high -> low <= fst (partition st low high) <= high.
Proof.
  intros Hlt. unfold partition, for_range.
  pose proof (partition_loop_index (get (Locals.sortedArray st) high)
                (Z.to_nat (high - low)) low (low - 1, st)) as H.
  destruct (iterate _ _ _ _) as [i st']. simpl in *. lia.
Qed.

(** Keeps the equation [x = y] when a clause matches on [x]. *)
Definition inspect {A : Type} (x : A) : {y : A | x = y} := exist _ x eq_refl.

(** [quickSortHelper(array, low, high)], left part first. *)
Equations? quickSortHelper (st : Locals.t) (low high : Z) : Locals.t
  by wf (Z.to_nat (high - low)) lt :=
  quickSortHelper st low high with inspect (low <? high) := {
    | exist _ true Hlt with inspect (partition st low high) := {
        | exist _ (pivotIndex, st1) Hp =>
            let st2 := quickSortHelper st1 low (pivotIndex - 1) in
            quickSortHelper st2 (pivotIndex + 1) high };
    | exist _ false _ => st }.
Proof.
  all: pose proof (partition_index st low high) as Hi;
    rewrite Hp in Hi; simpl in Hi; lia.
Qed.

Definition quickSort (arr : list Z) : Result.t :=
  let st := prologue arr in
  let st := quickSortHelper st 0 (len (Locals.sortedArray st) - 1) in
  epilogue "quick" st.

(** ** The dispatcher *)

(** What a caller may pass as [array]. *)
Inductive JsValue : Type :=
| JsUndefined
| JsNull
| JsBoolean (b : bool)
| JsNumber (n : Z)
| JsString (s : string)
| JsArray (a : list Z).

(** [Array.isArray(v)] *)
Definition isArray (v : JsValue) : bool :=
  match v with JsArray _ => true | _ => false end.

(** The process environment, as far as [sort] reads it: the field holds
    [parseInt(process.env.MAX_ARRAY_SIZE)], with [None] for [NaN] (variable
    unset or not a number). *)
Record ProcessEnv : Type := { MAX_ARRAY_SIZE : option Z }.

(** [parseInt(process.env.MAX_ARRAY_SIZE) || 1000]: [NaN] and [0] are falsy. *)
Definition maxArraySize (env : ProcessEnv) : Z :=
  match MAX_ARRAY_SIZE env with
  | Some n => if n =? 0 then 1000 else n
  | None => 1000
  end.

(** The four [throw new Error(...)] of [sort], named after the failure kinds
    of the specification. *)
Inductive SortError : Type :=
| InvalidInputKind
| EmptyInputKind
| SizeLimitExceededKind
| UnsupportedAlgorithmKind (algorithm : string).

(** The fixed part of the message each of them carries. *)
Definition errorMessage (e : SortError) : string :=
  match e with
  | InvalidInputKind => "Input must be an array"
  | EmptyInputKind => "Array cannot be empty"
  | SizeLimitExceededKind => "Array size exceeds maximum limit of "
  | UnsupportedAlgorithmKind algorithm => "Unsupported sorting algorithm: " ++ algorithm
  end.

(** [array.every((val, i) => f(val, i))], from index [i] on. *)
Fixpoint every (f : Z -> Z -> bool) (i : Z) (l : list Z) : bool :=
  match l with
  | [] => true
  | val :: l' => f val i && every f (i + 1) l'
  end.

(** [array.every((val, i) => i === 0 || array[i - 1] <= val)] *)
Definition isAlreadySorted (array : list Z) : bool :=
  every (fun val i => (i =? 0) || (get array (i - 1) <=? val)) 0 array.

(** [String.prototype.toLowerCase], on identifiers written in ASCII. *)
Definition lowerAscii (c : ascii) : ascii :=
  let n := nat_of_ascii c in
  if (65 <=? n)%nat && (n <=? 90)%nat then ascii_of_nat (n + 32) else c.

Fixpoint toLowerCase (s : string) : string :=
  match s with
  | EmptyString => EmptyString
  | String c s' => String (lowerAscii c) (toLowerCase s')
  end.

(** The receiver of [sort]: the executors it reaches through [this]. *)
Record Class : Type :=
  { this_bubbleSort : list Z -> Result.t;
    this_quickSort : list Z -> Result.t;
    this_selectionSort : list Z -> Result.t;
    this_insertionSort : list Z -> Result.t }.

(** [static sort(array, algorithm)].  The [catch] block logs and rethrows,
    so a [throw] is the result [inl]. *)
Definition sort (this : Class) (env : ProcessEnv)
    (array : JsValue) (algorithm : string) : SortError + Result.t :=
  match array with
  | JsArray array =>
      if len array =? 0 then inl EmptyInputKind
      else if len array >? maxArraySize env then inl SizeLimitExceededKind
      else
        let isAlreadySorted := isAlreadySorted array in
        if isAlreadySorted then
          inr (Result.mk [Step.mk array None 0] array algorithm 0)
        else
          let selector := toLowerCase algorithm in
          if String.eqb selector "bubble" then inr (this_bubbleSort this array)
          else if String.eqb selector "quick" then inr (this_quickSort this array)
          else if String.eqb selector "selection" then inr (this_selectionSort this array)
          else if String.eqb selector "insertion" then inr (this_insertionSort this array)
          else inl (UnsupportedAlgorithmKind algorithm)
  | _ => inl InvalidInputKind
  end.

(** The class itself. *)
Definition SortingAlgorithms : Class :=
  {| this_bubbleSort := bubbleSort;
     this_quickSort := quickSort;
     this_selectionSort := selectionSort;
     this_insertionSort := insertionSort |}.

(** [sort(array)]: the parameter [algorithm] defaults to ['bubble']. *)
Definition sort_default (this : Class) (env : ProcessEnv)
    (array : JsValue) : SortError + Result.t :=
  sort this env array "bubble".

(** The four identifiers of the [switch]. *)
Definition supported (algorithm : string) : Prop :=
  In (toLowerCase algorithm) ["bubble"; "quick"; "selection"; "insertion"]%string.

(** ** Inputs the dispatcher accepts *)

(** A non-empty array within the configured size.  (The bounds on the
    values are checked by the request validator; [sort] does not depend on
    them.) *)
Definition valid_input (env : ProcessEnv) (arr : list Z) : Prop :=
  arr <> [] /\ len arr <= maxArraySize env.

(** The result of the fast path. *)
Definition fastPath (array : list Z) (algorithm : string) : Result.t :=
  Result.mk [Step.mk array None 0] array algorithm 0.

(** The environment without [MAX_ARRAY_SIZE]: the limit is 1000. *)
Definition defaultEnv : ProcessEnv := {| MAX_ARRAY_SIZE := None |}.

(** * Insertion sort, as the specification words it *)

Module InsertionSpec.

(** The number of leftward shifts of a key that stands right of positions
    [0..k-1]: the left neighbours that exceed it, up to the first that
    does not. *)
Fixpoint shifts (a : list Z) (key : Z) (k : nat) : nat :=
  match k with
  | O => O
  | S j => if get a (Z.of_nat j) >? key then S (shifts a key j) else O
  end.

(** The array once the values at [j..i-1] have each moved one position to
    the right. *)
Definition shifted (a : list Z) (j i : Z) : list Z :=
  imap (fun idx x =>
          if (j <? Z.of_nat idx) && (Z.of_nat idx <=? i)
          then get a (Z.of_nat idx - 1) else x) a.

(** The step of the shift that moves the value at [j] to [j + 1]. *)
Definition shiftStep (a : list Z) (i : Z) (count : nat) (j : Z) : Step.t :=
  Step.mk (shifted a j i) (Some (j, j + 1)) count.

(** Position [i]: the shifts, each a step of its own and one comparison;
    one more comparison if a neighbour stopped the key; a final step for the
    placement unless the key rests at [i]. *)
Definition pass (i : Z) (st : Locals.t) : Locals.t :=
  let a := Locals.sortedArray st in
  let c := Locals.comparisonCount st in
  let key := get a i in
  let s := shifts a key (Z.to_nat i) in
  let restingIndex := i - Z.of_nat s in
  let examined := (s + if (restingIndex =? 0)%Z then 0 else 1)%nat in
  let shiftSteps :=
    map (fun t => shiftStep a i (c + t)%nat (i - Z.of_nat t)) (seq 1 s) in
  let final := set (shifted a restingIndex i) restingIndex key in
  let placement :=
    if restingIndex =? i then []
    else [Step.mk final (Some (restingIndex, i)) (c + examined)%nat] in
  Locals.mk (Locals.steps st ++ shiftSteps ++ placement) final (c + examined)%nat.

(** The trace starts with the snapshot of the input; then the positions
    [1..n-1] in turn. *)
Definition result (arr : list Z) : Result.t :=
  let st0 := Locals.mk [Step.mk arr None 0] arr 0 in
  let st := fold_left (fun st i => pass (Z.of_nat i) st)
                      (seq 1 (length arr - 1)) st0 in
  Result.mk (Locals.steps st) (Locals.sortedArray st) "insertion"
            (Locals.comparisonCount st).

End InsertionSpec.

(** * The class over a store of array objects

    The same class once more, now with JavaScript's arrays as mutable
    objects: [arr] is a reference, [[...arr]] allocates, [a[i] = v] writes
    in place, and the steps hold references to their snapshots.  The steps
    themselves and the bundle are built once and never written again; they
    stay values. *)

Module StepRef.
Record t : Type := mk
  { array : nat;
    swapIndices : option (Z * Z);
    comparisonCount : nat }.
End StepRef.

Module ResultRef.
Record t : Type := mk
  { steps : list StepRef.t;
    sortedArray : nat;
    algorithmType : string;
    totalComparisons : nat }.
End ResultRef.

Module LocalsRef.
Record t : Type := mk
  { steps : list StepRef.t;
    sortedArray : nat;
    comparisonCount : nat }.
End LocalsRef.

Module Heap.

(** A reference to an array object. *)
Abbreviation loc := nat (only parsing).

(** The store: the array objects allocated so far, indexed by reference.
    Nothing is ever freed. *)
Abbreviation heap := (list (list Z)) (only parsing).

(** A computation runs on a store and returns a value and the new store.
    It faults ([None]) on what the model does not cover: an access through
    a reference to no object, a read or write outside the bounds of an
    array, and recursion deeper than its fuel. *)
Definition M (A : Type) : Type := heap -> option (A * heap).

#[global] Instance M_ret : MRet M := fun A x h => Some (x, h).

#[global] Instance M_bind : MBind M := fun A B k m h =>
  match m h with
  | Some (x, h') => k x h'
  | None => None
  end.

(** [[...a]] *)
Definition copy (a : loc) : M loc := fun h =>
  match h !! a with
  | Some v => Some (length h, h ++ [v])
  | None => None
  end.

(** [a.length] *)
Definition lengthOf (a : loc) : M Z := fun h =>
  match h !! a with
  | Some v => Some (len v, h)
  | None => None
  end.

(** [a[i]] *)
Definition read (a : loc) (i : Z) : M Z := fun h =>
  match h !! a with
  | Some v => if (0 <=? i) && (i <? len v) then Some (get v i, h) else None
  | None => None
  end.

(** [a[i] = x] *)
Definition write (a : loc) (i x : Z) : M unit := fun h =>
  match h !! a with
  | Some v =>
      if (0 <=? i) && (i <? len v) then Some (tt, <[a := set v i x]> h) else None
  | None => None
  end.

(** [[a[i], a[j]] = [a[j], a[i]]] *)
Definition swap (a : loc) (i j : Z) : M unit :=
  t0 ← read a j;
  t1 ← read a i;
  _ ← write a i t0;
  write a j t1.

Definition prologue (arr : loc) : M LocalsRef.t :=
  let steps := [] in
  sortedArray ← copy arr;
  let comparisonCount := 0%nat in
  snapshot ← copy sortedArray;
  mret (LocalsRef.mk (steps ++ [StepRef.mk snapshot None comparisonCount])
                     sortedArray comparisonCount).

Definition tick (st : LocalsRef.t) : LocalsRef.t :=
  LocalsRef.mk (LocalsRef.steps st) (LocalsRef.sortedArray st)
               (S (LocalsRef.comparisonCount st)).

Definition push (st : LocalsRef.t) (i j : Z) : M LocalsRef.t :=
  snapshot ← copy (LocalsRef.sortedArray st);
  mret (LocalsRef.mk
          (LocalsRef.steps st ++
             [StepRef.mk snapshot (Some (i, j)) (LocalsRef.comparisonCount st)])
          (LocalsRef.sortedArray st) (LocalsRef.comparisonCount st)).

Definition epilogue (algorithmType : string) (st : LocalsRef.t) : ResultRef.t :=
  ResultRef.mk (LocalsRef.steps st) (LocalsRef.sortedArray st) algorithmType
               (LocalsRef.comparisonCount st).

Fixpoint iterate {S : Type} (n : nat) (j : Z) (body : Z -> S -> M S) (s : S) : M S :=
  match n with
  | O => mret s
  | Datatypes.S n' => s' ← body j s; iterate n' (j + 1) body s'
  end.

Definition for_range {S : Type} (lo hi : Z) (body : Z -> S -> M S) (s : S) : M S :=
  iterate (Z.to_nat (hi - lo)) lo body s.

(** ** bubbleSort *)

Definition bubble_body (j : Z) (s : bool * LocalsRef.t) : M (bool * LocalsRef.t) :=
  let '(swapped, st) := s in
  let st := tick st in
  x ← read (LocalsRef.sortedArray st) j;
  y ← read (LocalsRef.sortedArray st) (j + 1);
  if x >? y then
    _ ← swap (LocalsRef.sortedArray st) j (j + 1);
    let swapped := true in
    st ← push st j (j + 1);
    mret (swapped, st)
  else mret (swapped, st).

Definition bubble_pass (i : Z) (st : LocalsRef.t) : M (bool * LocalsRef.t) :=
  let swapped := false in
  n ← lengthOf (LocalsRef.sortedArray st);
  for_range 0 (n - 1 - i) bubble_body (swapped, st).

Fixpoint bubble_outer (n : nat) (i : Z) (st : LocalsRef.t) : M LocalsRef.t :=
  match n with
  | O => mret st
  | Datatypes.S n' =>
      '(swapped, st) ← bubble_pass i st;
      if negb swapped then mret st else bubble_outer n' (i + 1) st
  end.

Definition bubbleSort (arr : loc) : M ResultRef.t :=
  st ← prologue arr;
  n ← lengthOf (LocalsRef.sortedArray st);
  st ← bubble_outer (Z.to_nat (n - 1 - 0)) 0 st;
  mret (epilogue "bubble" st).

(** ** selectionSort *)

Definition selection_body (j : Z) (s : Z * LocalsRef.t) : M (Z * LocalsRef.t) :=
  let '(minIndex, st) := s in
  let st := tick st in
  x ← read (LocalsRef.sortedArray st) j;
  y ← read (LocalsRef.sortedArray st) minIndex;
  if x <? y then mret (j, st) else mret (minIndex, st).

Definition selection_pass (i : Z) (st : LocalsRef.t) : M LocalsRef.t :=
  let minIndex := i in
  n ← lengthOf (LocalsRef.sortedArray st);
  '(minIndex, st) ← for_range (i + 1) n selection_body (minIndex, st);
  if negb (minIndex =? i) then
    _ ← swap (LocalsRef.sortedArray st) i minIndex;
    push st i minIndex
  else mret st.

Definition selectionSort (arr : loc) : M ResultRef.t :=
  st ← prologue arr;
  n ← lengthOf (LocalsRef.sortedArray st);
  st ← for_range 0 (n - 1) selection_pass st;
  mret (epilogue "selection" st).

(** ** insertionSort *)

Fixpoint insertion_while (k : nat) (key : Z) (st : LocalsRef.t) : M (Z * LocalsRef.t) :=
  match k with
  | O => mret (-1, st)
  | Datatypes.S k' =>
      let j := Z.of_nat k' in
      let st := tick st in
      x ← read (LocalsRef.sortedArray st) j;
      if x >? key then
        y ← read (LocalsRef.sortedArray st) j;
        _ ← write (LocalsRef.sortedArray st) (j + 1) y;
        st ← push st j (j + 1);
        insertion_while k' key st
      else mret (j, st)
  end.

Definition insertion_pass (i : Z) (st : LocalsRef.t) : M LocalsRef.t :=
  key ← read (LocalsRef.sortedArray st) i;
  let j := i - 1 in
  '(j, st) ← insertion_while (Z.to_nat (j + 1)) key st;
  _ ← write (LocalsRef.sortedArray st) (j + 1) key;
  if negb (j + 1 =? i) then push st (j + 1) i else mret st.

Definition insertionSort (arr : loc) : M ResultRef.t :=
  st ← prologue arr;
  n ← lengthOf (LocalsRef.sortedArray st);
  st ← for_range 1 n insertion_pass st;
  mret (epilogue "insertion" st).

(** ** quickSort *)

Definition partition_body (pivot : Z) (j : Z) (s : Z * LocalsRef.t) : M (Z * LocalsRef.t) :=
  let '(i, st) := s in
  let st := tick st in
  x ← read (LocalsRef.sortedArray st) j;
  if x <? pivot then
    let i := i + 1 in
    if negb (i =? j) then
      _ ← swap (LocalsRef.sortedArray st) i j;
      st ← push st i j;
      mret (i, st)
    else mret (i, st)
  else mret (i, st).

Definition partition (st : LocalsRef.t) (low high : Z) : M (Z * LocalsRef.t) :=
  pivot ← read (LocalsRef.sortedArray st) high;
  let i := low - 1 in
  '(i, st) ← for_range low high (partition_body pivot) (i, st);
  st ← (if negb (i + 1 =? high) then
          _ ← swap (LocalsRef.sortedArray st) (i + 1) high;
          push st (i + 1) high
        else mret st);
  mret (i + 1, st).

(** [quickSortHelper], with the depth of the recursion bounded by [fuel]. *)
Fixpoint quickSortHelper (fuel : nat) (st : LocalsRef.t) (low high : Z) : M LocalsRef.t :=
  match fuel with
  | O => fun _ => None
  | Datatypes.S fuel' =>
      if low <? high then
        '(pivotIndex, st) ← partition st low high;
        st ← quickSortHelper fuel' st low (pivotIndex - 1);
        quickSortHelper fuel' st (pivotIndex + 1) high
      else mret st
  end.

Definition quickSort (arr : loc) : M ResultRef.t :=
  st ← prologue arr;
  n ← lengthOf (LocalsRef.sortedArray st);
  st ← quickSortHelper (S (Z.to_nat n)) st 0 (n - 1);
  mret (epilogue "quick" st).

(** ** The dispatcher *)

(** What a caller may pass as [array]: an array comes by reference. *)
Inductive JsRef : Type :=
| RUndefined
| RNull
| RBoolean (b : bool)
| RNumber (n : Z)
| RString (s : string)
| RArray (a : loc).

(** [array.every((val, i) => i === 0 || array[i - 1] <= val)]: the callback
    only reads. *)
Definition isAlreadySorted (array : loc) : M bool := fun h =>
  match h !! array with
  | Some v => Some (every (fun val i => (i =? 0) || (get v (i - 1) <=? val)) 0 v, h)
  | None => None
  end.

Record Class : Type :=
  { this_bubbleSort : loc -> M ResultRef.t;
    this_quickSort : loc -> M ResultRef.t;
    this_selectionSort : loc -> M ResultRef.t;
    this_insertionSort : loc -> M ResultRef.t }.

Definition sort (this : Class) (env : ProcessEnv)
    (array : JsRef) (algorithm : string) : M (SortError + ResultRef.t) :=
  match array with
  | RArray array =>
      n ← lengthOf array;
      if n =? 0 then mret (inl EmptyInputKind)
      else if n >? maxArraySize env then mret (inl SizeLimitExceededKind)
      else
        isAlreadySorted ← isAlreadySorted array;
        if (isAlreadySorted : bool) then
          snapshot ← copy array;
          sortedArray ← copy array;
          mret (inr (ResultRef.mk [StepRef.mk snapshot None 0] sortedArray algorithm 0))
        else
          let selector := toLowerCase algorithm in
          if String.eqb selector "bubble" then
            r ← this_bubbleSort this array; mret (inr r)
          else if String.eqb selector "quick" then
            r ← this_quickSort this array; mret (inr r)
          else if String.eqb selector "selection" then
            r ← this_selectionSort this array; mret (inr r)
          else if String.eqb selector "insertion" then
            r ← this_insertionSort this array; mret (inr r)
          else mret (inl (UnsupportedAlgorithmKind algorithm))
  | _ => mret (inl InvalidInputKind)
  end.

Definition SortingAlgorithms : Class :=
  {| this_bubbleSort := bubbleSort;
     this_quickSort := quickSort;
     this_selectionSort := selectionSort;
     this_insertionSort := insertionSort |}.

End Heap.

(** * Around the class

    Code of the repository that the class works with: the bubble sort of the
    first version of the server, the validators and the hook of the
    [Session] model, the record the [POST /] route stores, and the table of
    complexities. *)

(** ** The bubble sort of the first server

    [function bubbleSort(arr)]: no early exit, no counter, and the steps
    are the snapshots themselves. *)

Module Legacy.

Record Locals : Type := mk
  { steps : list (list Z);
    sortedArray : list Z }.

(** The body of the inner loop. *)
Definition bubble_body (j : Z) (st : Locals) : Locals :=
  if get (sortedArray st) j >? get (sortedArray st) (j + 1) then
    let sortedArray := swap (sortedArray st) j (j + 1) in
    mk (steps st ++ [sortedArray]) sortedArray
  else st.

(** The body of the outer loop. *)
Definition bubble_pass (i : Z) (st : Locals) : Locals :=
  for_range 0 (len (sortedArray st) - 1 - i) bubble_body st.

(** [return { steps, sortedArray }] *)
Definition bubbleSort (arr : list Z) : list (list Z) * list Z :=
  let steps := [] in
  let sortedArray := arr in
  let st := mk (steps ++ [sortedArray]) sortedArray in
  let st := for_range 0 (len (Legacy.sortedArray st) - 1) bubble_pass st in
  (Legacy.steps st, Legacy.sortedArray st).

End Legacy.

(** ** The [Session] model *)

(** The values of the conditions of [isValidArray]: booleans and numbers. *)
Inductive JsPrim : Type :=
| PBoolean (b : bool)
| PNumber (n : Z).

(** What an [if] makes of a value: [false] and [0] are falsy. *)
Definition truthy (p : JsPrim) : bool :=
  match p with
  | PBoolean b => b
  | PNumber n => negb (n =? 0)
  end.

(** [a || b] *)
Definition jsOr (a b : JsPrim) : JsPrim := if truthy a then a else b.

(** [x > y] for a number [x] and the result [y] of [parseInt]; a comparison
    with [NaN] is [false]. *)
Definition gtParsed (x : Z) (y : option Z) : bool :=
  match y with
  | Some y => x >? y
  | None => false
  end.

(** The errors the validator and the hook of the model throw, one per
    [throw] statement: 'originalArray must be an array', 'originalArray
    cannot be empty', 'Array size cannot exceed' followed by the limit, and
    'Original and sorted arrays must have the same length'. *)
Inductive SessionError : Type :=
| MustBeArray
| CannotBeEmpty
| SizeCannotExceed
| LengthsDiffer.

(** The validator [isValidArray] of [originalArray]; it returns the error
    it throws, or [None] when it returns normally.  In its third test [>]
    binds tighter than [||]:
    [value.length > parseInt(process.env.MAX_ARRAY_SIZE) || 1000]. *)
Definition isValidArray (env : ProcessEnv) (value : JsValue) : option SessionError :=
  match value with
  | JsArray value =>
      if len value =? 0 then Some CannotBeEmpty
      else if truthy (jsOr (PBoolean (gtParsed (len value) (MAX_ARRAY_SIZE env)))
                           (PNumber 1000))
           then Some SizeCannotExceed
           else None
  | _ => Some MustBeArray
  end.

(** The fields of a session that depend on the sort. *)
Record SessionFields : Type :=
  { originalArray : list Z;
    sessionSortedArray : list Z;
    totalSteps : Z;
    algorithmType : string }.

(** The argument of [Session.create] in the route [POST /]:
    [{ originalArray: numbers, sortedArray: sortResult.sortedArray,
       totalSteps: sortResult.steps.length - 1,
       algorithmType: sortResult.algorithmType, ... }] *)
Definition sessionFields (numbers : list Z) (sortResult : Result.t) : SessionFields :=
  {| originalArray := numbers;
     sessionSortedArray := Result.sortedArray sortResult;
     totalSteps := Z.of_nat (length (Result.steps sortResult)) - 1;
     algorithmType := Result.algorithmType sortResult |}.

(** The hook [beforeCreate]; it returns the error it throws, if any. *)
Definition beforeCreate (session : SessionFields) : option SessionError :=
  if negb (len (originalArray session) =? len (sessionSortedArray session))
  then Some LengthsDiffer
  else None.

(** [validate: { min: 0 }] of [totalSteps] *)
Definition totalSteps_valid (session : SessionFields) : bool :=
  0 <=? totalSteps session.

(** [validate: { isIn: [['bubble', 'quick', 'merge', 'selection', 'insertion']] }]
    of [algorithmType] *)
Definition algorithmType_valid (session : SessionFields) : bool :=
  existsb (String.eqb (algorithmType session))
          ["bubble"; "quick"; "merge"; "selection"; "insertion"]%string.

(** ** The table of complexities *)

Record Complexity : Type :=
  { best : string; average : string; worst : string; space : string }.

(** The own properties of the object [complexities], in the order of the
    literal. *)
Definition complexities : list (string * Complexity) :=
  [ ("bubble",    {| best := "O(n)";       average := "O(n²)";
                     worst := "O(n²)";    space := "O(1)" |});
    ("quick",     {| best := "O(n log n)"; average := "O(n log n)";
                     worst := "O(n²)";    space := "O(log n)" |});
    ("selection", {| best := "O(n²)";     average := "O(n²)";
                     worst := "O(n²)";    space := "O(1)" |});
    ("insertion", {| best := "O(n)";       average := "O(n²)";
                     worst := "O(n²)";    space := "O(1)" |}) ]%string.

(** What [complexities[key] || null] yields: an entry of the table for an
    own property; for any other key, what the prototype chain of the object
    holds under it, and [null] if that is nothing.  The model leaves the
    prototypes alone and only says that the key is not an own property. *)
Inductive ComplexityLookup : Type :=
| Entry (c : Complexity)
| NotOwn (key : string).

Fixpoint ownProperty (key : string) (o : list (string * Complexity)) : option Complexity :=
  match o with
  | [] => None
  | (k, c) :: o' => if String.eqb key k then Some c else ownProperty key o'
  end.

(** [static getAlgorithmComplexity(algorithm, arraySize)]; the second
    parameter is not used. *)
Definition getAlgorithmComplexity (algorithm : string) (arraySize : Z) : ComplexityLookup :=
  let key := toLowerCase algorithm in
  match ownProperty key complexities with
  | Some c => Entry c
  | None => NotOwn key
  end.

(** * Proofs: the value model *)

(** ** Arrays: reading, writing, swapping *)

Section ArrayFacts.
Implicit Types (a : list Z) (i j k v : Z).

Lemma len_nonneg a : 0 <= len a.
Proof. unfold len. lia. Qed.

Lemma len_set a i v : len (set a i v) = len a.
Proof. unfold len, set. by rewrite length_insert. Qed.

Lemma len_swap a i j : len (swap a i j) = len a.
Proof. unfold swap. by rewrite !len_set. Qed.

Lemma get_lookup a i : 0 <= i < len a -> a !! Z.to_nat i = Some (get a i).
Proof.
  intros Hi. unfold get.
  destruct (a !! Z.to_nat i) eqn:E; [done|].
  apply lookup_ge_None in E. unfold len in Hi. lia.
Qed.

Lemma get_set_eq a i v : 0 <= i < len a -> get (set a i v) i = v.
Proof.
  intros Hi. unfold get, set. rewrite list_lookup_insert_eq; [done|].
  unfold len in Hi. lia.
Qed.

Lemma get_set_ne a i j v : 0 <= i -> 0 <= j -> i <> j -> get (set a i v) j = get a j.
Proof.
  intros Hi Hj Hne. unfold get, set. rewrite list_lookup_insert_ne; [done|lia].
Qed.

Lemma get_set a i j v :
  0 <= i < len a -> 0 <= j ->
  get (set a i v) j = if j =? i then v else get a j.
Proof.
  intros Hi Hj. destruct (Z.eqb_spec j i) as [->|Hne].
  - by apply get_set_eq.
  - apply get_set_ne; lia.
Qed.

Lemma set_get_id a i : set a i (get a i) = a.
Proof.
  unfold set, get. destruct (a !! Z.to_nat i) eqn:E; simpl.
  - by apply list_insert_id.
  - apply list_insert_ge. by apply lookup_ge_None.
Qed.

Lemma get_swap a i j k :
  0 <= i < len a -> 0 <= j < len a -> 0 <= k ->
  get (swap a i j) k =
    if k =? j then get a i else if k =? i then get a j else get a k.
Proof.
  intros Hi Hj Hk. unfold swap.
  rewrite get_set by (rewrite ?len_set; lia).
  destruct (k =? j); [done|]. by rewrite get_set by lia.
Qed.

Lemma swap_same a i : swap a i i = a.
Proof.
  unfold swap, set. rewrite list_insert_insert_eq. apply set_get_id.
Qed.

(** Two arrays of one length with the same elements are equal. *)
Lemma array_ext a b :
  len a = len b -> (forall k, 0 <= k < len a -> get a k = get b k) -> a = b.
Proof.
  intros Hlen Hget. apply list_eq. intros n.
  destruct (decide (n < length a)%nat) as [Hn|Hn].
  - specialize (Hget (Z.of_nat n)).
    rewrite <- (Nat2Z.id n).
    rewrite !get_lookup by (unfold len in *; lia).
    f_equal. apply Hget. unfold len. lia.
  - rewrite !(proj2 (lookup_ge_None _ _)); [done| |]; unfold len in *; lia.
Qed.

Lemma insert_head_perm (l : list Z) (n : nat) (x y : Z) :
  l !! n = Some y -> Permutation (y :: <[n:=x]> l) (x :: l).
Proof.
  revert n. induction l as [|z l IH]; intros [|n] H; simplify_eq/=.
  - apply perm_swap.
  - rewrite perm_swap. rewrite (IH n H). apply perm_swap.
Qed.

Lemma insert_insert_perm (l : list Z) (n m : nat) (x y : Z) :
  l !! n = Some x -> l !! m = Some y ->
  Permutation (<[m:=x]> (<[n:=y]> l)) l.
Proof.
  revert n m. induction l as [|z l IH]; intros [|n] [|m] Hn Hm; simplify_eq/=.
  - done.
  - by apply insert_head_perm.
  - by apply insert_head_perm.
  - constructor. by apply IH.
Qed.

Lemma swap_perm a i j :
  0 <= i < len a -> 0 <= j < len a -> Permutation (swap a i j) a.
Proof.
  intros Hi Hj. unfold swap, set.
  apply insert_insert_perm; by apply get_lookup.
Qed.
End ArrayFacts.

(** * Traces under construction *)

(** A recorded pair of indices: inside the array and distinct. *)
Definition touched_ok (n : Z) (s : Step.t) : Prop :=
  exists i j, Step.swapIndices s = Some (i, j) /\
              0 <= i < n /\ 0 <= j < n /\ i <> j.

Definition counts (steps : list Step.t) : list nat :=
  map Step.comparisonCount steps.

(** What holds of the locals of an executor started on [input] whenever
    control is between two statements that belong to different steps. *)
Record TraceOk (input : list Z) (st : Locals.t) : Prop :=
  { ok_first : exists rest,
      Locals.steps st = Step.mk input None 0 :: rest /\
      Forall (touched_ok (len input)) rest;
    ok_len : len (Locals.sortedArray st) = len input;
    ok_last : Step.array <$> last (Locals.steps st) = Some (Locals.sortedArray st);
    ok_counts :
      StronglySorted le (counts (Locals.steps st) ++ [Locals.comparisonCount st]) }.

Section TraceFacts.
Variable input : list Z.

Lemma StronglySorted_le_snoc_bump (l : list nat) (c c' : nat) :
  StronglySorted le (l ++ [c]) -> (c <= c')%nat -> StronglySorted le (l ++ [c']).
Proof.
  rewrite !StronglySorted_app. intros (Hle & Hl & _) Hc.
  split_and!; [|done|repeat constructor].
  intros x1 x2 Hx1 ->%list_elem_of_singleton.
  specialize (Hle x1 c Hx1). rewrite list_elem_of_singleton in Hle.
  specialize (Hle eq_refl). lia.
Qed.

Lemma StronglySorted_le_snoc_dup (l : list nat) (c : nat) :
  StronglySorted le (l ++ [c]) -> StronglySorted le ((l ++ [c]) ++ [c]).
Proof.
  intros H. apply StronglySorted_app. split_and!; [|done|repeat constructor].
  intros x1 x2 Hx1 ->%list_elem_of_singleton.
  apply elem_of_app in Hx1 as [Hx1| ->%list_elem_of_singleton]; [|done].
  eapply StronglySorted_app_1_elem_of; [done..|]. by apply list_elem_of_singleton.
Qed.

Lemma prologue_ok : TraceOk input (prologue input).
Proof.
  split; simpl; [|done..|repeat constructor].
  exists []. by split.
Qed.

Lemma tick_ok st : TraceOk input st -> TraceOk input (tick st).
Proof.
  intros [Hf Hl Hla Hc]. split; simpl; [done..|].
  eapply StronglySorted_le_snoc_bump; [done|lia].
Qed.

(** A write that keeps the length, followed by the push of its step. *)
Lemma step_ok st f i j :
  TraceOk input st ->
  len (f (Locals.sortedArray st)) = len (Locals.sortedArray st) ->
  0 <= i < len input -> 0 <= j < len input -> i <> j ->
  TraceOk input (push (update f st) i j).
Proof.
  intros [(rest & Hsteps & Hrest) Hl Hla Hc] Hf Hi Hj Hij.
  split; simpl.
  - exists (rest ++ [Step.mk (f (Locals.sortedArray st)) (Some (i, j))
                            (Locals.comparisonCount st)]).
    rewrite Hsteps. split; [done|].
    apply Forall_app. split; [done|].
    repeat constructor. by exists i, j.
  - congruence.
  - by rewrite last_snoc.
  - unfold counts. rewrite map_app. simpl. by apply StronglySorted_le_snoc_dup.
Qed.

Lemma swap_step_ok st i j :
  TraceOk input st ->
  0 <= i < len input -> 0 <= j < len input -> i <> j ->
  TraceOk input (push (update (fun a => swap a i j) st) i j).
Proof. intros. apply step_ok; [done| |done..]. apply len_swap. Qed.
End TraceFacts.

(** * Sortedness of a range of an array *)

(** The elements at [lo], ..., [hi - 1] are in non-decreasing order. *)
Definition sorted_between (a : list Z) (lo hi : Z) : Prop :=
  forall k l, lo <= k -> k <= l -> l < hi -> get a k <= get a l.

(** No element at [lo], ..., [mid - 1] exceeds one at [mid], ..., [hi - 1]. *)
Definition below (a : list Z) (lo mid hi : Z) : Prop :=
  forall k l, lo <= k < mid -> mid <= l < hi -> get a k <= get a l.

Lemma sorted_between_Sorted a : sorted_between a 0 (len a) -> Sorted Z.le a.
Proof.
  intros H. apply StronglySorted_Sorted.
  assert (forall n m x y, (n <= m)%nat -> a !! n = Some x -> a !! m = Some y -> x <= y)
    as Hnm.
  { intros n m x y Hle Hn Hm.
    pose proof (lookup_lt_Some _ _ _ Hm) as Hlt.
    specialize (H (Z.of_nat n) (Z.of_nat m)). unfold get in H.
    rewrite !Nat2Z.id, Hn, Hm in H. simpl in H. apply H; unfold len; lia. }
  clear H. induction a as [|x a IH]; constructor.
  - apply IH. intros n m y z Hle Hy Hz. apply (Hnm (S n) (S m)); [lia|done..].
  - apply List.Forall_forall. intros y Hy.
    apply list_elem_of_In, list_elem_of_lookup in Hy as [n Hn].
    apply (Hnm 0%nat (S n)); [lia|done..].
Qed.

Lemma Sorted_sorted_between a : Sorted Z.le a -> sorted_between a 0 (len a).
Proof.
  intros H%Sorted_StronglySorted; [|intros ???; lia].
  intros k l Hk Hkl Hl.
  replace l with (k + (l - k)) by lia.
  assert (0 <= l - k) as Hd by lia. assert (k + (l - k) < len a) as Hb by lia.
  revert Hd Hb. generalize (l - k). clear l Hkl Hl. intros d Hd Hb.
  revert k Hk d Hd Hb. induction H as [|x a Hs IH Hx]; intros k Hk d Hd Hb.
  - unfold len in Hb. simpl in Hb. lia.
  - unfold get.
    destruct (decide (k = 0)) as [->|Hk0].
    + destruct (decide (d = 0)) as [->|Hd0]; [simpl; lia|].
      replace (Z.to_nat (0 + d)) with (S (Z.to_nat (d - 1))) by lia. simpl.
      unfold len in Hb. simpl in Hb.
      destruct (a !! Z.to_nat (d - 1)) as [y|] eqn:E.
      * simpl. eapply (proj1 (List.Forall_forall _ _) Hx).
        apply list_elem_of_In, list_elem_of_lookup. eauto.
      * apply lookup_ge_None in E. lia.
    + replace (Z.to_nat k) with (S (Z.to_nat (k - 1))) by lia.
      replace (Z.to_nat (k + d)) with (S (Z.to_nat (k - 1 + d))) by lia. simpl.
      apply (IH (k - 1)); [lia|lia|]. unfold len in *. simpl in Hb. lia.
Qed.

(** * Loop invariants *)

Lemma iterate_inv {S : Type} (I : Z -> S -> Prop) (body : Z -> S -> S) n j s :
  I j s ->
  (forall k s', j <= k < j + Z.of_nat n -> I k s' -> I (k + 1) (body k s')) ->
  I (j + Z.of_nat n) (iterate n j body s).
Proof.
  revert j s. induction n as [|n IH]; intros j s Hs Hbody.
  - simpl. by rewrite Z.add_0_r.
  - cbn [iterate]. replace (j + Z.of_nat (Datatypes.S n)) with (j + 1 + Z.of_nat n) by lia.
    apply IH.
    + apply Hbody; [lia|done].
    + intros k s' Hk. apply Hbody. lia.
Qed.

Lemma for_range_inv {S : Type} (I : Z -> S -> Prop) (body : Z -> S -> S) lo hi s :
  lo <= hi ->
  I lo s ->
  (forall k s', lo <= k < hi -> I k s' -> I (k + 1) (body k s')) ->
  I hi (for_range lo hi body s).
Proof.
  intros Hle Hs Hbody. unfold for_range.
  replace hi with (lo + Z.of_nat (Z.to_nat (hi - lo))) at 1 by lia.
  apply iterate_inv; [done|]. intros k s' Hk. apply Hbody. lia.
Qed.

Lemma for_range_empty {S : Type} (body : Z -> S -> S) lo hi s :
  hi <= lo -> for_range lo hi body s = s.
Proof.
  intros Hle. unfold for_range. by replace (Z.to_nat (hi - lo)) with 0%nat by lia.
Qed.

Lemma sortedArray_tick st : Locals.sortedArray (tick st) = Locals.sortedArray st.
Proof. done. Qed.

Lemma sortedArray_push st i j : Locals.sortedArray (push st i j) = Locals.sortedArray st.
Proof. done. Qed.

Lemma sortedArray_update f st :
  Locals.sortedArray (update f st) = f (Locals.sortedArray st).
Proof. done. Qed.

Create Rewrite HintDb locals.
#[local] Hint Rewrite sortedArray_tick sortedArray_push sortedArray_update : locals.

(** Rewrites the reads of a swapped array and splits on the index tests. *)
Ltac swap_cases :=
  rewrite ?get_swap by lia;
  repeat match goal with
         | |- context [?x =? ?y] => destruct (Z.eqb_spec x y); subst
         end;
  try lia.

(** What every executor establishes when it reaches its [return]. *)
Definition Finished (input : list Z) (st : Locals.t) : Prop :=
  TraceOk input st /\
  Permutation (Locals.sortedArray st) input /\
  sorted_between (Locals.sortedArray st) 0 (len input).

(** * bubbleSort sorts *)

Section Bubble.
Variable input : list Z.
Let n := len input.

(** The inner loop, before the comparison at [j], in the pass that
    bubbles the maximum of [0..m] up to position [m]. *)
Definition bubble_inv (m j : Z) (s : bool * Locals.t) : Prop :=
  let a := Locals.sortedArray (snd s) in
  TraceOk input (snd s) /\
  Permutation a input /\
  sorted_between a (m + 1) n /\
  below a 0 (m + 1) n /\
  (forall k, 0 <= k < j -> get a k <= get a j) /\
  (fst s = false -> sorted_between a 0 (j + 1)).

Lemma bubble_body_inv m j s :
  0 <= j < m -> m < n ->
  bubble_inv m j s -> bubble_inv m (j + 1) (bubble_body j s).
Proof.
  intros Hj Hm. destruct s as [swapped st].
  unfold bubble_inv, bubble_body. cbn [fst snd].
  intros (Hok & Hperm & Hsorted & Hbelow & Hmax & Hflag).
  pose proof (ok_len _ _ Hok) as Hlen. fold n in Hlen.
  autorewrite with locals. set (a := Locals.sortedArray st) in *.
  destruct (Z.gtb_spec (get a j) (get a (j + 1))) as [Hgt|Hle]; cbn [fst snd];
    autorewrite with locals; fold a.
  - split_and!.
    + apply swap_step_ok; [by apply tick_ok|fold n; lia..].
    + rewrite swap_perm by lia. done.
    + intros k l Hk Hkl Hl. swap_cases. apply Hsorted; lia.
    + intros k l Hk Hl. swap_cases; apply Hbelow; lia.
    + intros k Hk. swap_cases. specialize (Hmax k). lia.
    + done.
  - split_and!.
    + by apply tick_ok.
    + done.
    + done.
    + done.
    + intros k Hk. destruct (decide (k = j)) as [->|Hne]; [lia|].
      specialize (Hmax k). lia.
    + intros Hsw k l Hk Hkl Hl. specialize (Hflag Hsw).
      destruct (decide (l = j + 1)) as [->|Hne]; [|apply Hflag; lia].
      destruct (decide (k = j + 1)) as [->|Hne']; [lia|].
      specialize (Hflag k j). lia.
Qed.

(** The outer loop, before pass [i]: the last [i] positions hold their
    final elements. *)
Definition bubble_outer_inv (i : Z) (st : Locals.t) : Prop :=
  let a := Locals.sortedArray st in
  TraceOk input st /\
  Permutation a input /\
  sorted_between a (n - i) n /\
  below a 0 (n - i) n.

Lemma bubble_pass_inv i st :
  0 <= i < n - 1 ->
  bubble_outer_inv i st ->
  bubble_outer_inv (i + 1) (snd (bubble_pass i st)) /\
  (fst (bubble_pass i st) = false ->
   sorted_between (Locals.sortedArray (snd (bubble_pass i st))) 0 n).
Proof.
  intros Hi (Hok & Hperm & Hsorted & Hbelow).
  pose proof (ok_len _ _ Hok) as Hlen. fold n in Hlen.
  unfold bubble_pass. rewrite Hlen. set (m := n - 1 - i).
  assert (bubble_inv m m (for_range 0 m bubble_body (false, st))) as Hinv.
  { apply (for_range_inv (bubble_inv m)); [lia| |].
    - unfold bubble_inv. cbn [fst snd]. split_and!; [done|done| | | |].
      + by replace (m + 1) with (n - i) by lia.
      + by replace (m + 1) with (n - i) by lia.
      + intros k Hk. lia.
      + intros _ k l Hk Hkl Hl. by replace l with k by lia.
    - intros k s' Hk. apply bubble_body_inv; lia. }
  destruct (for_range 0 m bubble_body (false, st)) as [swapped st'].
  destruct Hinv as (Hok' & Hperm' & Hsorted' & Hbelow' & Hmax & Hflag).
  cbn [fst snd] in *. set (a := Locals.sortedArray st') in *.
  assert (sorted_between a m n) as Hsm.
  { intros k l Hk Hkl Hl. destruct (decide (k = m)) as [->|Hne].
    - destruct (decide (l = m)) as [->|Hne']; [lia|]. apply Hbelow'; lia.
    - apply Hsorted'; lia. }
  assert (below a 0 m n) as Hbm.
  { intros k l Hk Hl. destruct (decide (l = m)) as [->|Hne].
    - apply Hmax; lia.
    - apply Hbelow'; lia. }
  split.
  { unfold bubble_outer_inv. by replace (n - (i + 1)) with m by lia. }
  intros Hsw k l Hk Hkl Hl. specialize (Hflag Hsw).
  destruct (Z.lt_ge_cases l (m + 1)); [apply Hflag; lia|].
  destruct (Z.lt_ge_cases k (m + 1)); [apply Hbelow'; lia|].
  apply Hsorted'; lia.
Qed.

Lemma bubble_outer_sorts fuel i st :
  fuel = Z.to_nat (n - 1 - i) -> 0 <= i ->
  bubble_outer_inv i st ->
  let st' := bubble_outer fuel i st in
  TraceOk input st' /\
  Permutation (Locals.sortedArray st') input /\
  sorted_between (Locals.sortedArray st') 0 n.
Proof.
  revert i st. induction fuel as [|fuel IH]; intros i st Hfuel Hi Hinv.
  - destruct Hinv as (Hok & Hperm & Hsorted & Hbelow). simpl.
    split_and!; [done..|].
    intros k l Hk Hkl Hl.
    destruct (Z.lt_ge_cases k (n - i)) as [Hlt|Hge].
    + assert (k = 0) as -> by lia.
      destruct (decide (l = 0)) as [->|Hne]; [lia|]. apply Hbelow; lia.
    + apply Hsorted; lia.
  - cbn [bubble_outer].
    destruct (bubble_pass_inv i st) as [Hnext Hbreak]; [lia|done|].
    destruct (bubble_pass i st) as [swapped st']. cbn [fst snd] in *.
    destruct swapped; cbn [negb].
    + apply IH; [lia|lia|done].
    + destruct Hnext as (Hok & Hperm & _). auto.
Qed.

Lemma bubbleSort_sorts :
  exists st, bubbleSort input = epilogue "bubble" st /\ Finished input st.
Proof.
  eexists. split; [reflexivity|].
  apply bubble_outer_sorts; [done|lia|].
  - unfold bubble_outer_inv. simpl. split_and!.
    + apply prologue_ok.
    + done.
    + intros k l Hk Hkl Hl. fold n in Hk. lia.
    + intros k l Hk Hl. fold n in Hk. lia.
Qed.
End Bubble.

(** * selectionSort sorts *)

Section Selection.
Variable input : list Z.
Let n := len input.

(** The scan for the minimum of positions [i..n-1], before the comparison
    at [j]; the array stays [a0]. *)
Definition selection_inv (a0 : list Z) (i j : Z) (s : Z * Locals.t) : Prop :=
  TraceOk input (snd s) /\
  Locals.sortedArray (snd s) = a0 /\
  i <= fst s < j /\
  (forall k, i <= k < j -> get a0 (fst s) <= get a0 k).

Lemma selection_body_inv a0 i j s :
  selection_inv a0 i j s -> selection_inv a0 i (j + 1) (selection_body j s).
Proof.
  destruct s as [minIndex st]. unfold selection_inv, selection_body.
  cbn [fst snd]. intros (Hok & Ha & Hmin & Hle).
  autorewrite with locals. rewrite Ha.
  destruct (Z.ltb_spec (get a0 j) (get a0 minIndex)); cbn [fst snd];
    autorewrite with locals.
  - split_and!; [by apply tick_ok|done|lia|lia|].
    intros k Hk. destruct (decide (k = j)) as [->|]; [lia|].
    specialize (Hle k). lia.
  - split_and!; [by apply tick_ok|done|lia|lia|].
    intros k Hk. destruct (decide (k = j)) as [->|]; [lia|].
    apply Hle. lia.
Qed.

(** The outer loop, before pass [i]: the first [i] positions hold their
    final elements. *)
Definition selection_outer_inv (i : Z) (st : Locals.t) : Prop :=
  let a := Locals.sortedArray st in
  TraceOk input st /\
  Permutation a input /\
  sorted_between a 0 i /\
  below a 0 i n.

Lemma selection_pass_inv i st :
  0 <= i < n - 1 ->
  selection_outer_inv i st -> selection_outer_inv (i + 1) (selection_pass i st).
Proof.
  intros Hi (Hok & Hperm & Hsorted & Hbelow).
  pose proof (ok_len _ _ Hok) as Hlen. fold n in Hlen.
  unfold selection_pass. rewrite Hlen. set (a := Locals.sortedArray st) in *.
  assert (selection_inv a i n (for_range (i + 1) n selection_body (i, st))) as Hinv.
  { apply (for_range_inv (selection_inv a i)); [lia| |].
    - split_and!; cbn [fst snd]; [done|done|lia|lia|].
      intros k Hk. by replace k with i by lia.
    - intros k s' _. apply selection_body_inv. }
  destruct (for_range (i + 1) n selection_body (i, st)) as [minIndex st'].
  destruct Hinv as (Hok' & Ha & Hmin & Hle). cbn [fst snd] in *.
  pose proof (ok_len _ _ Hok') as Hlen'. fold n in Hlen'.
  destruct (Z.eqb_spec minIndex i) as [->|Hne]; cbn [negb].
  - unfold selection_outer_inv. rewrite Ha. split_and!; [done|done| |].
    + intros k l Hk Hkl Hl. destruct (decide (l = i)) as [->|].
      * destruct (decide (k = i)) as [->|]; [lia|]. apply Hbelow; lia.
      * apply Hsorted; lia.
    + intros k l Hk Hl. destruct (decide (k = i)) as [->|].
      * apply Hle. lia.
      * apply Hbelow; lia.
  - unfold selection_outer_inv. autorewrite with locals. rewrite Ha.
    split_and!.
    + apply swap_step_ok; [done|fold n; lia..].
    + rewrite swap_perm by lia. done.
    + intros k l Hk Hkl Hl. swap_cases.
      * apply Hbelow; lia.
      * apply Hsorted; lia.
    + intros k l Hk Hl. swap_cases.
      * apply Hle; lia.
      * apply Hle; lia.
      * apply Hbelow; lia.
      * apply Hbelow; lia.
Qed.

Lemma selectionSort_sorts :
  exists st, selectionSort input = epilogue "selection" st /\ Finished input st.
Proof.
  eexists. split; [reflexivity|]. cbn [prologue Locals.sortedArray]. fold n.
  destruct (Z.le_gt_cases 0 (n - 1)) as [Hn|Hn].
  - assert (selection_outer_inv (n - 1)
              (for_range 0 (n - 1) selection_pass (prologue input))) as Hinv.
    { apply (for_range_inv selection_outer_inv); [done| |].
      - split_and!; [apply prologue_ok|done| |].
        + intros k l Hk Hkl Hl. lia.
        + intros k l Hk Hl. lia.
      - intros k s' Hk. apply selection_pass_inv. lia. }
    destruct Hinv as (Hok & Hperm & Hsorted & Hbelow).
    split_and!; [done..|]. fold n.
    intros k l Hk Hkl Hl. destruct (decide (l = n - 1)) as [->|].
    + destruct (decide (k = n - 1)) as [->|]; [lia|]. apply Hbelow; lia.
    + apply Hsorted; lia.
  - rewrite for_range_empty by lia.
    split_and!; [apply prologue_ok|done|].
    intros k l Hk Hkl Hl. fold n in Hl. lia.
Qed.
End Selection.

(** * insertionSort sorts *)

Section Insertion.
Variable input : list Z.
Let n := len input.

(** The [while] loop of pass [i] with [j + 1 = k]: position [k] is the
    hole the key will go to; the elements right of it, up to [i], have
    been shifted by one and exceed the key. *)
Definition insertion_inv (i key k : Z) (st : Locals.t) : Prop :=
  let b := Locals.sortedArray st in
  TraceOk input st /\
  Permutation (set b k key) input /\
  sorted_between b 0 k /\
  (forall l, k < l <= i -> key < get b l) /\
  sorted_between b (k + 1) (i + 1) /\
  (forall l1 l2, 0 <= l1 < k -> k < l2 <= i -> get b l1 <= get b l2) /\
  (k = i -> get b i = key).

(** Shifting the left neighbour into the hole moves the hole one to the
    left. *)
Lemma shift_hole b k key :
  0 < k < len b ->
  set (set b k (get b (k - 1))) (k - 1) key = swap (set b k key) (k - 1) k.
Proof.
  intros Hk. apply array_ext.
  - by rewrite len_swap, !len_set.
  - intros l Hl. rewrite !len_set in Hl.
    rewrite get_swap by (rewrite ?len_set; lia).
    rewrite !get_set by (rewrite ?len_set; lia).
    repeat match goal with
           | |- context [?x =? ?y] => destruct (Z.eqb_spec x y)
           end; try lia; done.
Qed.

Lemma insertion_while_spec i key (k : nat) st :
  Z.of_nat k <= i < n ->
  insertion_inv i key (Z.of_nat k) st ->
  let j := fst (insertion_while k key st) in
  let st' := snd (insertion_while k key st) in
  let b := Locals.sortedArray st' in
  -1 <= j < Z.of_nat k /\
  TraceOk input st' /\
  Permutation (set b (j + 1) key) input /\
  sorted_between (set b (j + 1) key) 0 (i + 1) /\
  (j + 1 = i -> get b i = key).
Proof.
  revert st. induction k as [|k IH]; intros st Hk
    (Hok & Hperm & Hsorted & Hgt & Hright & Hcross & Hkey);
    pose proof (ok_len _ _ Hok) as Hlen; fold n in Hlen.
  - cbn [insertion_while fst snd]. change (-1 + 1) with 0.
    change (Z.of_nat 0) with 0 in *.
    set (b := Locals.sortedArray st) in *.
    split_and!; [lia|lia|done|done| |done].
    intros x y Hx Hxy Hy. rewrite !get_set by lia.
    destruct (Z.eqb_spec y 0) as [->|Hy0].
    + by replace x with 0 by lia.
    + destruct (Z.eqb_spec x 0) as [->|Hx0].
      * specialize (Hgt y). lia.
      * apply Hright; lia.
  - cbn [insertion_while]. autorewrite with locals.
    set (b := Locals.sortedArray st) in *.
    set (j := Z.of_nat k) in *.
    replace (Z.of_nat (Datatypes.S k)) with (j + 1) in * by lia.
    destruct (Z.gtb_spec (get b j) key) as [Hshift|Hstop].
    + match goal with
      | |- context [insertion_while k key ?s] => specialize (IH s)
      end.
      destruct IH as (Hj & IH); [lia| |split; [lia|exact IH]].
      unfold insertion_inv. autorewrite with locals. fold b.
      split_and!.
      * apply step_ok; [by apply tick_ok| |fold n; lia..].
        autorewrite with locals. apply len_set.
      * replace j with (j + 1 - 1) at 2 3 by lia.
        rewrite shift_hole by lia.
        rewrite swap_perm by (rewrite len_set; lia). done.
      * intros x y Hx Hxy Hy. rewrite !get_set_ne by lia. apply Hsorted; lia.
      * intros l Hl. rewrite get_set by lia.
        destruct (Z.eqb_spec l (j + 1)); [lia|]. apply Hgt. lia.
      * intros x y Hx Hxy Hy. rewrite !get_set by lia.
        destruct (Z.eqb_spec y (j + 1)) as [->|Hy1].
        -- destruct (Z.eqb_spec x (j + 1)); lia.
        -- destruct (Z.eqb_spec x (j + 1)) as [->|Hx1].
           ++ apply Hcross; lia.
           ++ apply Hright; lia.
      * intros l1 l2 Hl1 Hl2. rewrite !get_set by lia.
        destruct (Z.eqb_spec l1 (j + 1)); [lia|].
        destruct (Z.eqb_spec l2 (j + 1)) as [->|].
        -- apply Hsorted; lia.
        -- apply Hcross; lia.
      * lia.
    + cbn [fst snd]. autorewrite with locals. fold b.
      split_and!; [lia|lia|by apply tick_ok|done| |done].
      intros x y Hx Hxy Hy. rewrite !get_set by lia.
      destruct (Z.eqb_spec y (j + 1)) as [->|Hy1];
        destruct (Z.eqb_spec x (j + 1)) as [->|Hx1]; try lia.
      * specialize (Hsorted x j). lia.
      * specialize (Hgt y). lia.
      * destruct (Z.lt_ge_cases y (j + 1)); [apply Hsorted; lia|].
        destruct (Z.lt_ge_cases x (j + 1)); [apply Hcross; lia|].
        apply Hright; lia.
Qed.

(** The outer loop, before pass [i]: the first [i] elements are sorted. *)
Definition insertion_outer_inv (i : Z) (st : Locals.t) : Prop :=
  let a := Locals.sortedArray st in
  TraceOk input st /\
  Permutation a input /\
  sorted_between a 0 i.

Lemma update_id f st :
  f (Locals.sortedArray st) = Locals.sortedArray st -> update f st = st.
Proof. destruct st. unfold update. simpl. by intros ->. Qed.

Lemma insertion_pass_inv i st :
  1 <= i < n ->
  insertion_outer_inv i st -> insertion_outer_inv (i + 1) (insertion_pass i st).
Proof.
  intros Hi (Hok & Hperm & Hsorted).
  pose proof (ok_len _ _ Hok) as Hlen. fold n in Hlen.
  unfold insertion_pass. set (a := Locals.sortedArray st) in *.
  set (key := get a i). replace (i - 1 + 1) with i by lia.
  pose proof (insertion_while_spec i key (Z.to_nat i) st) as Hw.
  rewrite Z2Nat.id in Hw by lia.
  destruct Hw as (Hj & Hok' & Hperm' & Hsorted' & Hkey); [lia| |].
  { unfold insertion_inv. fold a. split_and!; [done| |done| | | |done].
    - by rewrite set_get_id.
    - intros l Hl. lia.
    - intros x y Hx Hxy Hy. lia.
    - intros l1 l2 Hl1 Hl2. lia. }
  destruct (insertion_while (Z.to_nat i) key st) as [j st'].
  cbn [fst snd] in *. set (b := Locals.sortedArray st') in *.
  pose proof (ok_len _ _ Hok') as Hlen'. fold n in Hlen'.
  destruct (Z.eqb_spec (j + 1) i) as [Heq|Hne]; cbn [negb].
  - rewrite update_id.
    + fold b in Hlen'. rewrite Heq in *. rewrite <- (Hkey eq_refl) in Hperm', Hsorted'.
      rewrite set_get_id in Hperm', Hsorted'. by split_and!.
    + fold b. rewrite Heq, <- (Hkey Heq). apply set_get_id.
  - unfold insertion_outer_inv. autorewrite with locals. fold b.
    split_and!; [|done..].
    apply step_ok; [done| |fold n; lia..]. apply len_set.
Qed.

Lemma insertionSort_sorts :
  exists st, insertionSort input = epilogue "insertion" st /\ Finished input st.
Proof.
  eexists. split; [reflexivity|]. cbn [prologue Locals.sortedArray]. fold n.
  destruct (Z.le_gt_cases 1 n) as [Hn|Hn].
  - assert (insertion_outer_inv n
              (for_range 1 n insertion_pass (prologue input))) as Hinv.
    { apply (for_range_inv insertion_outer_inv); [done| |].
      - split_and!; [apply prologue_ok|done|].
        intros k l Hk Hkl Hl. by replace l with k by lia.
      - intros k s' Hk. apply insertion_pass_inv. lia. }
    done.
  - rewrite for_range_empty by lia.
    split_and!; [apply prologue_ok|done|].
    intros k l Hk Hkl Hl. fold n in Hl. lia.
Qed.
End Insertion.

(** * quickSort sorts *)

(** [b] comes from [a] by swaps of positions in [[lo, hi]]. *)
Inductive seg_perm (lo hi : Z) (a : list Z) : list Z -> Prop :=
| seg_perm_refl : seg_perm lo hi a a
| seg_perm_swap b i j :
    seg_perm lo hi a b -> lo <= i <= hi -> lo <= j <= hi ->
    seg_perm lo hi a (swap b i j).

Section SegPerm.
Variables lo hi : Z.
Variable a : list Z.
Hypothesis Hlo : 0 <= lo.
Hypothesis Hhi : hi < len a.

Lemma seg_perm_len b : seg_perm lo hi a b -> len b = len a.
Proof. induction 1; [done|]. by rewrite len_swap. Qed.

Lemma seg_perm_perm b : seg_perm lo hi a b -> Permutation b a.
Proof.
  induction 1 as [|b i j Hab IH Hi Hj]; [done|].
  pose proof (seg_perm_len b Hab).
  rewrite swap_perm by lia. by apply IH.
Qed.

Lemma seg_perm_outside b k :
  seg_perm lo hi a b -> 0 <= k -> k < lo \/ hi < k -> get b k = get a k.
Proof.
  induction 1 as [|b i j Hab IH Hi Hj]; [done|]. intros Hk Hout.
  pose proof (seg_perm_len b Hab).
  rewrite get_swap by lia.
  destruct (Z.eqb_spec k j); [lia|]. destruct (Z.eqb_spec k i); [lia|].
  by apply IH.
Qed.

Lemma seg_perm_inside (P : Z -> Prop) b :
  seg_perm lo hi a b ->
  (forall k, lo <= k <= hi -> P (get a k)) ->
  forall k, lo <= k <= hi -> P (get b k).
Proof.
  induction 1 as [|b i j Hab IH Hi Hj]; [done|]. intros HP k Hk.
  pose proof (seg_perm_len b Hab).
  rewrite get_swap by lia.
  destruct (Z.eqb_spec k j); [by apply IH|].
  destruct (Z.eqb_spec k i); by apply IH.
Qed.
End SegPerm.

Lemma seg_perm_trans lo hi a b c :
  seg_perm lo hi a b -> seg_perm lo hi b c -> seg_perm lo hi a c.
Proof.
  intros Hab Hbc. induction Hbc as [|c i j Hbc IH Hi Hj]; [done|].
  apply seg_perm_swap; auto.
Qed.

Lemma seg_perm_weaken lo hi lo' hi' a b :
  lo' <= lo -> hi <= hi' -> seg_perm lo hi a b -> seg_perm lo' hi' a b.
Proof.
  intros Hlo Hhi. induction 1 as [|b i j Hab IH Hi Hj].
  - apply seg_perm_refl.
  - apply seg_perm_swap; [done|lia..].
Qed.

Lemma quickSortHelper_eq st low high :
  quickSortHelper st low high =
    if low <? high then
      let '(pivotIndex, st1) := partition st low high in
      quickSortHelper (quickSortHelper st1 low (pivotIndex - 1)) (pivotIndex + 1) high
    else st.
Proof.
  funelim (quickSortHelper st low high).
  - by rewrite e.
  - rewrite Hlt, Hp. done.
Qed.

Section Quick.
Variable input : list Z.
Let n := len input.

(** The loop of [partition] on [[low, high]], before the comparison at
    [j]: the elements at [low..i] are smaller than the pivot, those at
    [i+1..j-1] are not, and the pivot still sits at [high]. *)
Definition partition_inv (a0 : list Z) (low high pivot j : Z)
    (s : Z * Locals.t) : Prop :=
  let i := fst s in
  let b := Locals.sortedArray (snd s) in
  TraceOk input (snd s) /\
  seg_perm low high a0 b /\
  low - 1 <= i < j /\
  (forall k, low <= k <= i -> get b k < pivot) /\
  (forall k, i < k < j -> pivot <= get b k) /\
  get b high = pivot.

Lemma partition_body_inv a0 low high pivot j s :
  0 <= low -> high < n -> low <= j < high -> len a0 = n ->
  partition_inv a0 low high pivot j s ->
  partition_inv a0 low high pivot (j + 1) (partition_body pivot j s).
Proof.
  intros Hlow Hhigh Hj Ha0. destruct s as [i st].
  unfold partition_inv, partition_body. cbn [fst snd].
  intros (Hok & Hseg & Hi & Hsmall & Hlarge & Hpivot).
  pose proof (ok_len _ _ Hok) as Hlen. fold n in Hlen.
  autorewrite with locals. set (b := Locals.sortedArray st) in *.
  destruct (Z.ltb_spec (get b j) pivot) as [Hlt|Hge].
  - destruct (Z.eqb_spec (i + 1) j) as [Heq|Hne]; cbn [negb fst snd];
      autorewrite with locals; fold b.
    + split_and!; [by apply tick_ok|done|lia|lia| | |done].
      * intros k Hk. destruct (decide (k = j)) as [->|]; [done|].
        apply Hsmall. lia.
      * intros k Hk. lia.
    + split_and!.
      * apply swap_step_ok; [by apply tick_ok|fold n; lia..].
      * apply seg_perm_swap; [done|lia..].
      * lia.
      * lia.
      * intros k Hk. swap_cases. apply Hsmall. lia.
      * intros k Hk. swap_cases; apply Hlarge; lia.
      * swap_cases.
  - cbn [fst snd]. autorewrite with locals. fold b.
    split_and!; [by apply tick_ok|done|lia|lia|done| |done].
    intros k Hk. destruct (decide (k = j)) as [->|]; [done|].
    apply Hlarge. lia.
Qed.

(** [partition] leaves the pivot at the index it returns, between the
    smaller elements and the others. *)
Lemma partition_spec st low high :
  0 <= low -> low < high -> high < n ->
  TraceOk input st ->
  let p := fst (partition st low high) in
  let st' := snd (partition st low high) in
  let c := Locals.sortedArray st' in
  low <= p <= high /\
  TraceOk input st' /\
  seg_perm low high (Locals.sortedArray st) c /\
  (forall k, low <= k < p -> get c k <= get c p) /\
  (forall k, p < k <= high -> get c p <= get c k).
Proof.
  intros Hlow Hlt Hhigh Hok.
  pose proof (ok_len _ _ Hok) as Hlen. fold n in Hlen.
  unfold partition. set (a0 := Locals.sortedArray st) in *.
  set (pivot := get a0 high).
  assert (partition_inv a0 low high pivot high
            (for_range low high (partition_body pivot) (low - 1, st))) as Hinv.
  { apply (for_range_inv (partition_inv a0 low high pivot)); [lia| |].
    - unfold partition_inv. cbn [fst snd]. fold a0.
      split_and!; [done|apply seg_perm_refl|lia|lia| | |done].
      + intros k Hk. lia.
      + intros k Hk. lia.
    - intros k s' Hk. by apply partition_body_inv. }
  destruct (for_range low high (partition_body pivot) (low - 1, st)) as [i st1].
  destruct Hinv as (Hok1 & Hseg & Hi & Hsmall & Hlarge & Hpivot).
  cbn [fst snd] in *.
  pose proof (ok_len _ _ Hok1) as Hlen1. fold n in Hlen1.
  set (b := Locals.sortedArray st1) in *.
  destruct (Z.eqb_spec (i + 1) high) as [Heq|Hne]; cbn [negb fst snd];
    autorewrite with locals; fold b.
  - split_and!; [lia|lia|done|done| |].
    + intros k Hk. rewrite Heq, Hpivot. specialize (Hsmall k). lia.
    + intros k Hk. lia.
  - split_and!.
    + lia.
    + lia.
    + apply swap_step_ok; [done|fold n; lia..].
    + apply seg_perm_swap; [done|lia..].
    + intros k Hk. swap_cases. rewrite Hpivot. specialize (Hsmall k). lia.
    + intros k Hk. swap_cases.
      * rewrite Hpivot. apply Hlarge. lia.
      * rewrite Hpivot. apply Hlarge. lia.
Qed.

Lemma quickSortHelper_sorts (m : nat) st low high :
  Z.to_nat (high - low) = m ->
  0 <= low -> high < n ->
  TraceOk input st ->
  let st' := quickSortHelper st low high in
  TraceOk input st' /\
  seg_perm low high (Locals.sortedArray st) (Locals.sortedArray st') /\
  sorted_between (Locals.sortedArray st') low (high + 1).
Proof.
  revert st low high. induction (lt_wf m) as [m _ IH].
  intros st low high Hm Hlow Hhigh Hok.
  pose proof (ok_len _ _ Hok) as Hlen. fold n in Hlen.
  rewrite quickSortHelper_eq.
  destruct (Z.ltb_spec low high) as [Hlt|Hge].
  - destruct (partition_spec st low high) as (Hp & Hok1 & Hseg1 & Hleft & Hright);
      [done..|].
    destruct (partition st low high) as [p st1]. cbn [fst snd] in *.
    set (a := Locals.sortedArray st) in *.
    set (c := Locals.sortedArray st1) in *.
    pose proof (seg_perm_len _ _ _ _ Hseg1) as Hlenc.
    destruct (IH (Z.to_nat (p - 1 - low)) ltac:(lia) st1 low (p - 1))
      as (Hok2 & Hseg2 & Hsorted2); [done|lia|lia|done|].
    set (st2 := quickSortHelper st1 low (p - 1)) in *. fold c in Hseg2.
    set (d := Locals.sortedArray st2) in *.
    pose proof (seg_perm_len _ _ _ _ Hseg2) as Hlend.
    destruct (IH (Z.to_nat (high - (p + 1))) ltac:(lia) st2 (p + 1) high)
      as (Hok3 & Hseg3 & Hsorted3); [done|lia|lia|done|].
    set (st3 := quickSortHelper st2 (p + 1) high) in *. fold d in Hseg3.
    set (e := Locals.sortedArray st3) in *.
    split_and!; [done| |].
    + eapply seg_perm_trans; [exact Hseg1|].
      eapply seg_perm_trans; (eapply seg_perm_weaken; [| |eassumption]); lia.
    + (* the pivot stays at [p] through both calls *)
      assert (get d p = get c p) as Hdp
        by (apply (seg_perm_outside low (p - 1)); [lia|lia|done|lia|lia]).
      assert (get e p = get c p) as Hep.
      { rewrite <- Hdp. apply (seg_perm_outside (p + 1) high); [lia|lia|done|lia|lia]. }
      (* the left part stays below the pivot and sorted *)
      assert (forall k, low <= k <= p - 1 -> get d k <= get c p) as Hdleft.
      { apply (seg_perm_inside low (p - 1) c ltac:(lia) ltac:(lia)
                 (fun v => v <= get c p) d Hseg2).
        intros k Hk. apply Hleft. lia. }
      assert (forall k, low <= k < p -> get e k = get d k) as Heleft.
      { intros k Hk. apply (seg_perm_outside (p + 1) high); [lia|lia|done|lia|lia]. }
      (* the right part stays above the pivot *)
      assert (forall k, p + 1 <= k <= high -> get c p <= get d k) as Hdright.
      { intros k Hk.
        rewrite (seg_perm_outside low (p - 1) c ltac:(lia) ltac:(lia) d k Hseg2)
          by lia.
        apply Hright. lia. }
      assert (forall k, p + 1 <= k <= high -> get c p <= get e k) as Heright.
      { exact (seg_perm_inside (p + 1) high d ltac:(lia) ltac:(lia)
                 (fun v => get c p <= v) e Hseg3 Hdright). }
      intros x y Hx Hxy Hy.
      destruct (Z.lt_trichotomy y p) as [Hyp|[->|Hyp]].
      * rewrite !Heleft by lia. apply Hsorted2; lia.
      * destruct (decide (x = p)) as [->|]; [lia|].
        rewrite Hep. rewrite Heleft by lia. apply Hdleft. lia.
      * destruct (Z.lt_trichotomy x p) as [Hxp|[->|Hxp]].
        -- rewrite Heleft by lia. transitivity (get c p).
           ++ apply Hdleft. lia.
           ++ apply Heright. lia.
        -- rewrite Hep. apply Heright. lia.
        -- apply Hsorted3; lia.
  - split_and!; [done|apply seg_perm_refl|].
    intros x y Hx Hxy Hy. by replace y with x by lia.
Qed.

Lemma quickSort_sorts :
  exists st, quickSort input = epilogue "quick" st /\ Finished input st.
Proof.
  eexists. split; [reflexivity|]. cbn [prologue Locals.sortedArray]. fold n.
  destruct (quickSortHelper_sorts (Z.to_nat (n - 1 - 0)) (prologue input) 0 (n - 1))
    as (Hok & Hseg & Hsorted); [done|lia|lia|apply prologue_ok|].
  cbn [prologue Locals.sortedArray] in Hseg.
  split_and!; [done| |].
  - destruct (decide (n = 0)) as [Hn|Hn].
    + assert (input = []) as Hnil.
      { apply length_zero_iff_nil. unfold n, len in Hn. lia. }
      pose proof (ok_len _ _ Hok) as Hlen. rewrite Hnil in *.
      unfold len in Hlen. simpl in Hlen.
      by destruct (Locals.sortedArray _).
    + exact (seg_perm_perm 0 (n - 1) input ltac:(lia) ltac:(unfold n; lia) _ Hseg).
  - intros x y Hx Hxy Hy. fold n in Hy. apply Hsorted; lia.
Qed.
End Quick.

(** * The dispatcher: the test of the fast path *)

Lemma every_lookup f i l :
  every f i l = true <->
  forall (k : nat) x, l !! k = Some x -> f x (i + Z.of_nat k) = true.
Proof.
  revert i. induction l as [|x l IH]; intros i; simpl.
  - split; [|done]. intros _ k y Hk. by rewrite lookup_nil in Hk.
  - rewrite andb_true_iff, IH. split.
    + intros [Hx Hl] [|k] y Hk; simplify_eq/=.
      * by rewrite Z.add_0_r.
      * replace (i + Z.of_nat (Datatypes.S k)) with (i + 1 + Z.of_nat k) by lia.
        by apply Hl.
    + intros H. split.
      * specialize (H 0%nat x eq_refl). by rewrite Z.add_0_r in H.
      * intros k y Hk. specialize (H (Datatypes.S k) y Hk).
        by replace (i + 1 + Z.of_nat k) with (i + Z.of_nat (Datatypes.S k)) by lia.
Qed.

(** [isAlreadySorted] compares every element with its left neighbour. *)
Lemma isAlreadySorted_adjacent a :
  isAlreadySorted a = true <->
  forall k, 0 < k < len a -> get a (k - 1) <= get a k.
Proof.
  unfold isAlreadySorted. rewrite every_lookup. split.
  - intros H k Hk. specialize (H (Z.to_nat k) (get a k)).
    rewrite get_lookup in H by lia. specialize (H eq_refl).
    rewrite Z.add_0_l, Z2Nat.id in H by lia.
    apply orb_true_iff in H as [H|H]; lia.
  - intros H k x Hk. rewrite Z.add_0_l.
    destruct k as [|k]; [done|]. apply orb_true_iff. right.
    pose proof (lookup_lt_Some _ _ _ Hk) as Hlt.
    specialize (H (Z.of_nat (Datatypes.S k))).
    unfold get at 2 in H. rewrite Nat2Z.id, Hk in H. simpl in H.
    apply Z.leb_le, H. unfold len. lia.
Qed.

Lemma adjacent_sorted_between a lo hi :
  (forall k, lo < k < hi -> get a (k - 1) <= get a k) ->
  sorted_between a lo hi.
Proof.
  intros H k l Hk Hkl Hl.
  replace l with (k + Z.of_nat (Z.to_nat (l - k))) in * by lia.
  induction (Z.to_nat (l - k)) as [|d IH].
  - rewrite Z.add_0_r. lia.
  - specialize (H (k + Z.of_nat (Datatypes.S d))).
    replace (k + Z.of_nat (Datatypes.S d) - 1) with (k + Z.of_nat d) in H by lia.
    etransitivity; [apply IH; lia|apply H; lia].
Qed.

Lemma isAlreadySorted_spec a : isAlreadySorted a = true <-> Sorted Z.le a.
Proof.
  rewrite isAlreadySorted_adjacent. split.
  - intros H. apply sorted_between_Sorted, adjacent_sorted_between.
    intros k Hk. apply H. lia.
  - intros H%Sorted_sorted_between k Hk. apply H; lia.
Qed.

Lemma valid_input_checks env arr :
  valid_input env arr ->
  (len arr =? 0) = false /\ (len arr >? maxArraySize env) = false.
Proof.
  intros [Hne Hmax]. split.
  - apply Z.eqb_neq. unfold len. destruct arr; [done|simpl; lia].
  - destruct (Z.gtb_spec (len arr) (maxArraySize env)); [lia|done].
Qed.

Lemma sort_fast_path this env arr algorithm :
  valid_input env arr -> Sorted Z.le arr ->
  sort this env (JsArray arr) algorithm = inr (fastPath arr algorithm).
Proof.
  intros [H0 Hmax]%valid_input_checks Hs%isAlreadySorted_spec.
  unfold sort. by rewrite H0, Hmax, Hs.
Qed.

(** Past the fast path, [sort] is the [switch]. *)
Lemma sort_slow_path this env arr algorithm :
  valid_input env arr -> ~ Sorted Z.le arr ->
  sort this env (JsArray arr) algorithm =
    let selector := toLowerCase algorithm in
    if String.eqb selector "bubble" then inr (this_bubbleSort this arr)
    else if String.eqb selector "quick" then inr (this_quickSort this arr)
    else if String.eqb selector "selection" then inr (this_selectionSort this arr)
    else if String.eqb selector "insertion" then inr (this_insertionSort this arr)
    else inl (UnsupportedAlgorithmKind algorithm).
Proof.
  intros [H0 Hmax]%valid_input_checks Hs. unfold sort. rewrite H0, Hmax.
  destruct (isAlreadySorted arr) eqn:E; [|done].
  by apply isAlreadySorted_spec in E.
Qed.

(** Whatever a supported identifier selects, an executor has finished. *)
Lemma sort_supported env arr algorithm :
  valid_input env arr -> supported algorithm ->
  exists r, sort SortingAlgorithms env (JsArray arr) algorithm = inr r /\
    ((Sorted Z.le arr /\ r = fastPath arr algorithm) \/
     (~ Sorted Z.le arr /\ exists st name, r = epilogue name st /\ Finished arr st)).
Proof.
  intros Hvalid Hsup.
  destruct (isAlreadySorted arr) eqn:E.
  - apply isAlreadySorted_spec in E. exists (fastPath arr algorithm).
    split; [by apply sort_fast_path|]. by left.
  - assert (~ Sorted Z.le arr) as Hns.
    { intros Hs%isAlreadySorted_spec. congruence. }
    rewrite sort_slow_path by done. cbn zeta.
    unfold supported in Hsup. simpl in Hsup.
    destruct Hsup as [<-|[<-|[<-|[<-|[]]]]]; simpl.
    + destruct (bubbleSort_sorts arr) as (st & -> & Hst); eauto 10.
    + destruct (quickSort_sorts arr) as (st & -> & Hst); eauto 10.
    + destruct (selectionSort_sorts arr) as (st & -> & Hst); eauto 10.
    + destruct (insertionSort_sorts arr) as (st & -> & Hst); eauto 10.
Qed.

(** * Properties of the result bundles *)

Lemma StronglySorted_le_lookup (l : list nat) (i j : nat) (x y : nat) :
  StronglySorted le l -> (i <= j)%nat ->
  l !! i = Some x -> l !! j = Some y -> (x <= y)%nat.
Proof.
  intros Hl. revert i j. induction Hl as [|z l Hl IH Hz]; intros i j Hij Hi Hj.
  - by rewrite lookup_nil in Hi.
  - destruct i as [|i], j as [|j]; simplify_eq/=; [lia| |lia|].
    + eapply (proj1 (List.Forall_forall _ _) Hz).
      apply list_elem_of_In, list_elem_of_lookup. eauto.
    + apply (IH i j); [lia|done..].
Qed.

Lemma counts_lookup steps i s :
  steps !! i = Some s -> counts steps !! i = Some (Step.comparisonCount s).
Proof. intros H. unfold counts. by rewrite list_lookup_fmap, H. Qed.

(** The facts about a trace that [TraceOk] packs, for the bundle returned. *)
Lemma epilogue_trace input name st :
  TraceOk input st ->
  let r := epilogue name st in
  (exists rest, Result.steps r = Step.mk input None 0 :: rest /\
                Forall (touched_ok (len input)) rest) /\
  Step.array <$> last (Result.steps r) = Some (Result.sortedArray r) /\
  (forall i j s t, (i <= j)%nat ->
     Result.steps r !! i = Some s -> Result.steps r !! j = Some t ->
     (Step.comparisonCount s <= Step.comparisonCount t)%nat) /\
  (forall i s, Result.steps r !! i = Some s ->
     (Step.comparisonCount s <= Result.totalComparisons r)%nat).
Proof.
  intros [Hfirst Hlen Hlast Hcounts]. simpl. split_and!; [done|done| |].
  - intros i j s t Hij Hs%counts_lookup Ht%counts_lookup.
    apply StronglySorted_app_1_l in Hcounts.
    by eapply (StronglySorted_le_lookup _ i j).
  - intros i s Hs%counts_lookup.
    eapply (StronglySorted_app_1_elem_of _ _ _ _ _ Hcounts).
    + apply list_elem_of_lookup. eauto.
    + by apply list_elem_of_singleton.
Qed.

(** * Insertion sort against the wording of the specification *)

Section InsertionRefinement.
Import InsertionSpec.

Lemma len_shifted a j i : len (shifted a j i) = len a.
Proof. unfold len, shifted. by rewrite length_imap. Qed.

Lemma get_shifted a j i k :
  0 <= k < len a ->
  get (shifted a j i) k =
    if (j <? k) && (k <=? i) then get a (k - 1) else get a k.
Proof.
  intros Hk. unfold get at 1, shifted.
  rewrite list_lookup_imap, get_lookup by done. simpl.
  by rewrite Z2Nat.id by lia.
Qed.

Lemma shifted_none a i : shifted a i i = a.
Proof.
  apply array_ext; [apply len_shifted|].
  intros k Hk. rewrite len_shifted in Hk. rewrite get_shifted by done.
  destruct (Z.ltb_spec i k), (Z.leb_spec k i); simpl; try done; lia.
Qed.

Lemma shifted_step a j i :
  0 <= j -> j + 1 <= i < len a ->
  set (shifted a (j + 1) i) (j + 1) (get (shifted a (j + 1) i) j) = shifted a j i.
Proof.
  intros Hj Hi. apply array_ext; [by rewrite len_set, !len_shifted|].
  intros k Hk. rewrite len_set, len_shifted in Hk.
  rewrite get_set by (rewrite ?len_shifted; lia).
  rewrite !get_shifted by lia.
  destruct (Z.eqb_spec k (j + 1)) as [->|Hne].
  - replace (j + 1 - 1) with j by lia.
    destruct (Z.ltb_spec (j + 1) j), (Z.ltb_spec j (j + 1)),
      (Z.leb_spec (j + 1) i), (Z.leb_spec j i); simpl; try done; lia.
  - destruct (Z.ltb_spec (j + 1) k), (Z.ltb_spec j k), (Z.leb_spec k i);
      simpl; try done; lia.
Qed.

(** The [while] loop entered with the hole at [k] performs the remaining
    shifts. *)
Lemma insertion_while_shifts a i key (k : nat) st :
  Z.of_nat k <= i < len a ->
  Locals.sortedArray st = shifted a (Z.of_nat k) i ->
  let s := shifts a key k in
  let c := Locals.comparisonCount st in
  insertion_while k key st =
    (Z.of_nat k - Z.of_nat s - 1,
     Locals.mk
       (Locals.steps st ++
          map (fun t => shiftStep a i (c + t)%nat (Z.of_nat k - Z.of_nat t)) (seq 1 s))
       (shifted a (Z.of_nat k - Z.of_nat s) i)
       (c + (s + if (Z.of_nat k - Z.of_nat s =? 0)%Z then 0 else 1))%nat).
Proof.
  revert st. induction k as [|k IH]; intros st Hk Hb.
  - destruct st as [steps b c]. simpl in *. subst b.
    by rewrite app_nil_r, Nat.add_0_r.
  - cbn [insertion_while shifts]. autorewrite with locals. rewrite Hb.
    rewrite (get_shifted a _ i (Z.of_nat k)) by lia.
    replace ((Z.of_nat (S k) <? Z.of_nat k) && (Z.of_nat k <=? i)) with false
      by (destruct (Z.ltb_spec (Z.of_nat (S k)) (Z.of_nat k)); [lia|done]).
    destruct (get a (Z.of_nat k) >? key) eqn:Hcmp.
    + rewrite IH; clear IH; [| lia |].
      * cbn [Locals.comparisonCount Locals.steps push update tick
             Locals.sortedArray].
        f_equal; [lia|]. f_equal.
        -- rewrite <- app_assoc. f_equal. cbn [seq map app].
           f_equal.
           ++ unfold shiftStep. rewrite Hb.
              replace (Z.of_nat (S k)) with (Z.of_nat k + 1) by lia.
              rewrite shifted_step by lia.
              replace (Z.of_nat k + 1 - Z.of_nat 1) with (Z.of_nat k) by lia.
              f_equal. lia.
           ++ rewrite <- (seq_shift _ 1), map_map. apply map_ext. intros t.
              unfold shiftStep.
              replace (Z.of_nat (S k) - Z.of_nat (S t))
                with (Z.of_nat k - Z.of_nat t) by lia.
              f_equal. lia.
        -- f_equal. lia.
        -- replace (Z.of_nat (S k) - Z.of_nat (S (shifts a key k)))
             with (Z.of_nat k - Z.of_nat (shifts a key k)) by lia. lia.
      * autorewrite with locals. rewrite Hb.
        replace (Z.of_nat (S k)) with (Z.of_nat k + 1) by lia.
        rewrite (get_shifted a _ i (Z.of_nat k)) by lia.
        replace ((Z.of_nat k + 1 <? Z.of_nat k) && (Z.of_nat k <=? i)) with false
          by (destruct (Z.ltb_spec (Z.of_nat k + 1) (Z.of_nat k)); [lia|done]).
        rewrite <- (shifted_step a (Z.of_nat k) i) by lia.
        rewrite (get_shifted a _ i (Z.of_nat k)) by lia.
        by replace ((Z.of_nat k + 1 <? Z.of_nat k) && (Z.of_nat k <=? i)) with false
          by (destruct (Z.ltb_spec (Z.of_nat k + 1) (Z.of_nat k)); [lia|done]).
    + destruct st as [steps b c].
      cbn [Locals.steps Locals.sortedArray Locals.comparisonCount tick] in *.
      subst b. cbn [seq map shifts]. rewrite app_nil_r.
      change (Z.of_nat 0) with 0. rewrite Z.sub_0_r.
      f_equal; [lia|]. unfold tick. cbn [Locals.steps Locals.sortedArray
                                          Locals.comparisonCount].
      f_equal. destruct (Z.eqb_spec (Z.of_nat (S k)) 0); lia.
Qed.

(** One pass of the code is one pass of the specification. *)
Lemma insertion_pass_refines i st :
  1 <= i < len (Locals.sortedArray st) ->
  insertion_pass i st = pass i st.
Proof.
  intros Hi. unfold insertion_pass, pass.
  set (a := Locals.sortedArray st). set (key := get a i).
  replace (i - 1 + 1) with i by lia.
  rewrite (insertion_while_shifts a i key (Z.to_nat i) st); rewrite Z2Nat.id by lia;
    [|unfold a; lia|by rewrite shifted_none].
  set (s := shifts a key (Z.to_nat i)).
  replace (i - Z.of_nat s - 1 + 1) with (i - Z.of_nat s) by lia.
  destruct (Z.eqb_spec (i - Z.of_nat s) i) as [Heq|Hne]; cbn [negb].
  - unfold update. cbn [Locals.steps Locals.sortedArray Locals.comparisonCount].
    by rewrite app_nil_r.
  - unfold push, update.
    cbn [Locals.steps Locals.sortedArray Locals.comparisonCount].
    by rewrite <- app_assoc.
Qed.

Lemma len_pass i st :
  len (Locals.sortedArray (pass i st)) = len (Locals.sortedArray st).
Proof. unfold pass. simpl. by rewrite len_set, len_shifted. Qed.

Lemma iterate_passes (m : nat) (j : nat) st :
  (1 <= j)%nat -> Z.of_nat (j + m) <= len (Locals.sortedArray st) ->
  iterate m (Z.of_nat j) insertion_pass st =
    fold_left (fun st i => pass (Z.of_nat i) st) (seq j m) st.
Proof.
  revert j st. induction m as [|m IH]; intros j st Hj Hlen; [done|].
  cbn [iterate seq fold_left].
  rewrite insertion_pass_refines by lia.
  replace (Z.of_nat j + 1) with (Z.of_nat (S j)) by lia.
  apply IH; [lia|]. rewrite len_pass. lia.
Qed.

Lemma insertionSort_refines arr :
  insertionSort arr = InsertionSpec.result arr.
Proof.
  unfold insertionSort, InsertionSpec.result, for_range.
  cbn [prologue Locals.sortedArray app].
  replace (Z.to_nat (len arr - 1)) with (length arr - 1)%nat by (unfold len; lia).
  destruct arr as [|x arr]; [done|].
  rewrite (iterate_passes _ 1) by (unfold len; simpl; lia).
  done.
Qed.
End InsertionRefinement.

(** * The store model computes the bundles of the value model *)

Section HeapFacts.

(** [m], run on [h], returns, and its value and store satisfy [Q]. *)
Definition returns {A : Type} (m : Heap.M A) (h : Heap.heap) (Q : A -> Heap.heap -> Prop) : Prop :=
  exists x h', m h = Some (x, h') /\ Q x h'.

Lemma returns_ret {A : Type} (x : A) h (Q : A -> Heap.heap -> Prop) :
  Q x h -> returns (mret x) h Q.
Proof. intros HQ. by exists x, h. Qed.

Lemma returns_bind {A B : Type} (m : Heap.M A) (k : A -> Heap.M B) h (Q : B -> Heap.heap -> Prop) :
  returns m h (fun x h' => returns (k x) h' Q) -> returns (m ≫= k) h Q.
Proof.
  intros (x & h' & Hm & y & h'' & Hk & HQ). exists y, h''. split; [|done].
  unfold mbind, Heap.M_bind. by rewrite Hm.
Qed.

Lemma returns_mono {A : Type} (m : Heap.M A) h (Q Q' : A -> Heap.heap -> Prop) :
  returns m h Q -> (forall x h', Q x h' -> Q' x h') -> returns m h Q'.
Proof. intros (x & h' & Hm & HQ) HQQ. exists x, h'. auto. Qed.

Lemma bind_Some {A B : Type} (m : Heap.M A) (k : A -> Heap.M B) h x h' :
  m h = Some (x, h') -> (m ≫= k) h = k x h'.
Proof. intros Hm. unfold mbind, Heap.M_bind. by rewrite Hm. Qed.

(** A step of the store model stands for a step of the value model: its
    snapshot is an object of its own, allocated after [h0] and different
    from the working array [w]. *)
Definition step_sim (h0 : Heap.heap) (w : Heap.loc) (h : Heap.heap)
    (sR : StepRef.t) (s : Step.t) : Prop :=
  h !! StepRef.array sR = Some (Step.array s) /\
  (length h0 <= StepRef.array sR)%nat /\
  StepRef.array sR <> w /\
  StepRef.swapIndices sR = Step.swapIndices s /\
  StepRef.comparisonCount sR = Step.comparisonCount s.

(** The locals of an executor of the store model, started on the store
    [h0], stand for locals of the value model: the objects of [h0] are
    as they were, and the working array is an object allocated since. *)
Record Sim (h0 h : Heap.heap) (stR : LocalsRef.t) (st : Locals.t) : Prop :=
  { sim_prefix : h0 `prefix_of` h;
    sim_fresh : (length h0 <= LocalsRef.sortedArray stR)%nat;
    sim_array : h !! LocalsRef.sortedArray stR = Some (Locals.sortedArray st);
    sim_count : LocalsRef.comparisonCount stR = Locals.comparisonCount st;
    sim_steps : Forall2 (step_sim h0 (LocalsRef.sortedArray stR) h)
                        (LocalsRef.steps stR) (Locals.steps st) }.

Lemma sim_tick h0 h stR st :
  Sim h0 h stR st -> Sim h0 h (Heap.tick stR) (tick st).
Proof. intros [Hp Hf Ha Hc Hs]. split; simpl; auto. Qed.

Lemma sim_lengthOf h0 h stR st :
  Sim h0 h stR st ->
  Heap.lengthOf (LocalsRef.sortedArray stR) h = Some (len (Locals.sortedArray st), h).
Proof. intros [Hp Hf Ha Hc Hs]. unfold Heap.lengthOf. by rewrite Ha. Qed.

Lemma sim_read h0 h stR st i :
  Sim h0 h stR st -> 0 <= i < len (Locals.sortedArray st) ->
  Heap.read (LocalsRef.sortedArray stR) i h = Some (get (Locals.sortedArray st) i, h).
Proof.
  intros [Hp Hf Ha Hc Hs] Hi. unfold Heap.read. rewrite Ha.
  destruct (Z.leb_spec 0 i), (Z.ltb_spec i (len (Locals.sortedArray st)));
    simpl; try done; lia.
Qed.

(** A write to the working array leaves the objects of [h0] and the
    snapshots alone. *)
Lemma sim_store h0 h stR st v :
  Sim h0 h stR st ->
  Sim h0 (<[LocalsRef.sortedArray stR := v]> h) stR (update (fun _ => v) st).
Proof.
  intros [Hp Hf Ha Hc Hs]. split; simpl; [|done| |done|].
  - destruct Hp as [k ->]. exists (<[(LocalsRef.sortedArray stR - length h0)%nat := v]> k).
    by rewrite insert_app_r_alt by lia.
  - apply list_lookup_insert_eq. by eapply lookup_lt_Some.
  - eapply Forall2_impl; [exact Hs|]. intros sR s (H1 & H2 & H3 & H4 & H5).
    split_and!; [|done..]. by rewrite list_lookup_insert_ne.
Qed.

Lemma sim_write h0 h stR st i x :
  Sim h0 h stR st -> 0 <= i < len (Locals.sortedArray st) ->
  returns (Heap.write (LocalsRef.sortedArray stR) i x) h
    (fun _ h' => Sim h0 h' stR (update (fun a => set a i x) st)).
Proof.
  intros HS Hi. pose proof (sim_array _ _ _ _ HS) as Ha.
  exists tt, (<[LocalsRef.sortedArray stR := set (Locals.sortedArray st) i x]> h).
  split.
  - unfold Heap.write. rewrite Ha.
    destruct (Z.leb_spec 0 i), (Z.ltb_spec i (len (Locals.sortedArray st)));
      simpl; try done; lia.
  - by apply (sim_store _ _ _ _ (set (Locals.sortedArray st) i x)) in HS.
Qed.

Lemma sim_swap h0 h stR st i j :
  Sim h0 h stR st ->
  0 <= i < len (Locals.sortedArray st) -> 0 <= j < len (Locals.sortedArray st) ->
  returns (Heap.swap (LocalsRef.sortedArray stR) i j) h
    (fun _ h' => Sim h0 h' stR (update (fun a => swap a i j) st)).
Proof.
  intros HS Hi Hj. unfold Heap.swap.
  apply returns_bind. eexists _, _. split; [by eapply sim_read|].
  apply returns_bind. eexists _, _. split; [by eapply sim_read|].
  apply returns_bind. eapply returns_mono; [by apply sim_write|].
  intros [] h' HS'. cbv beta in *.
  eapply returns_mono; [apply sim_write; [exact HS'|]|].
  - autorewrite with locals. rewrite len_set. lia.
  - intros [] h'' HS''. cbv beta in *. clear -HS''. by destruct st.
Qed.

Lemma sim_push h0 h stR st i j :
  Sim h0 h stR st ->
  returns (Heap.push stR i j) h (fun stR' h' => Sim h0 h' stR' (push st i j)).
Proof.
  intros [Hp Hf Ha Hc Hs]. unfold Heap.push.
  apply returns_bind. eexists _, _. split; [unfold Heap.copy; by rewrite Ha|].
  apply returns_ret. pose proof (lookup_lt_Some _ _ _ Ha) as Hlt.
  split; simpl.
  - by apply prefix_app_r.
  - done.
  - by apply lookup_app_l_Some.
  - done.
  - apply Forall2_app.
    + eapply Forall2_impl; [exact Hs|]. intros sR s (H1 & H2 & H3 & H4 & H5).
      split_and!; [|done..]. by apply lookup_app_l_Some.
    + repeat constructor; simpl; [|lia|lia|by rewrite Hc].
      by rewrite list_lookup_middle.
Qed.

Lemma sim_prologue h0 arr v :
  h0 !! arr = Some v ->
  returns (Heap.prologue arr) h0 (fun stR h' => Sim h0 h' stR (prologue v)).
Proof.
  intros Harr. unfold Heap.prologue.
  apply returns_bind. eexists _, _. split; [unfold Heap.copy; by rewrite Harr|].
  apply returns_bind. eexists _, _. split.
  { unfold Heap.copy. by rewrite list_lookup_middle. }
  apply returns_ret. split; simpl.
  - rewrite <- app_assoc. by apply prefix_app_r.
  - done.
  - rewrite lookup_app_l by (rewrite length_app; simpl; lia).
    by rewrite list_lookup_middle.
  - done.
  - repeat constructor; simpl; [|rewrite length_app; simpl; lia..].
    by rewrite list_lookup_middle by (rewrite length_app; simpl; lia).
Qed.

(** ** Loops *)

Lemma iterate_sim {SR S : Type} (R : Z -> SR -> S -> Heap.heap -> Prop)
    (bodyR : Z -> SR -> Heap.M SR) (body : Z -> S -> S) n j sR s h :
  R j sR s h ->
  (forall k sR s h, j <= k < j + Z.of_nat n -> R k sR s h ->
     returns (bodyR k sR) h (fun sR' h' => R (k + 1) sR' (body k s) h')) ->
  returns (Heap.iterate n j bodyR sR) h
    (fun sR' h' => R (j + Z.of_nat n) sR' (iterate n j body s) h').
Proof.
  revert j sR s h. induction n as [|n IH]; intros j sR s h HR Hbody.
  - apply returns_ret. simpl. by rewrite Z.add_0_r.
  - cbn [Heap.iterate iterate]. apply returns_bind.
    eapply returns_mono; [apply Hbody; [lia|exact HR]|].
    intros sR' h' HR'. cbv beta in *.
    replace (j + Z.of_nat (Datatypes.S n)) with (j + 1 + Z.of_nat n) by lia.
    apply IH; [done|]. intros k sR0 s0 h0 Hk. apply Hbody. lia.
Qed.

Lemma for_range_sim {SR S : Type} (R : Z -> SR -> S -> Heap.heap -> Prop)
    (bodyR : Z -> SR -> Heap.M SR) (body : Z -> S -> S) lo hi sR s h :
  R lo sR s h ->
  (forall k sR s h, lo <= k < hi -> R k sR s h ->
     returns (bodyR k sR) h (fun sR' h' => R (k + 1) sR' (body k s) h')) ->
  returns (Heap.for_range lo hi bodyR sR) h
    (fun sR' h' => R (Z.max lo hi) sR' (for_range lo hi body s) h').
Proof.
  intros HR Hbody. unfold Heap.for_range, for_range.
  replace (Z.max lo hi) with (lo + Z.of_nat (Z.to_nat (hi - lo))) by lia.
  apply iterate_sim; [done|]. intros k sR0 s0 h0 Hk. apply Hbody. lia.
Qed.

(** The state of a loop that carries a value [x] next to the locals. *)
Definition LoopSim {X : Type} (h0 : Heap.heap) (n : Z)
    (sR : X * LocalsRef.t) (s : X * Locals.t) (h : Heap.heap) : Prop :=
  fst sR = fst s /\
  Sim h0 h (snd sR) (snd s) /\
  len (Locals.sortedArray (snd s)) = n.

(** Runs the next statement of the store model with the lemma for it. *)
Ltac sim_read :=
  apply returns_bind; eexists _, _;
  split; [eapply sim_read; [eassumption|autorewrite with locals; lia]|];
  cbv beta.

Ltac sim_length :=
  apply returns_bind; eexists _, _;
  split; [eapply sim_lengthOf; eassumption|];
  cbv beta.

Ltac sim_swap HS :=
  apply returns_bind; eapply returns_mono;
  [eapply sim_swap; [eassumption|autorewrite with locals; lia..]|];
  intros [] ? HS; cbv beta in *.

Ltac sim_write HS :=
  apply returns_bind; eapply returns_mono;
  [eapply sim_write; [eassumption|autorewrite with locals; lia]|];
  intros [] ? HS; cbv beta in *.

Ltac sim_push HS :=
  apply returns_bind; eapply returns_mono;
  [eapply sim_push; eassumption|];
  intros ? ? HS; cbv beta in *.

(** ** bubbleSort *)

Lemma bubble_body_sim h0 n j sR s h :
  0 <= j -> j + 1 < n ->
  LoopSim h0 n sR s h ->
  returns (Heap.bubble_body j sR) h
    (fun sR' h' => LoopSim h0 n sR' (bubble_body j s) h').
Proof.
  intros Hj Hj1. destruct sR as [swR stR], s as [sw st].
  intros (Hsw & HS%sim_tick & Hlen). cbn [fst snd] in *. subst swR.
  unfold Heap.bubble_body, bubble_body.
  sim_read. sim_read. autorewrite with locals.
  destruct (_ >? _).
  - sim_swap HS1. sim_push HS2. apply returns_ret.
    split_and!; cbn [fst snd]; [done|done|].
    autorewrite with locals. by rewrite len_swap.
  - apply returns_ret. by split_and!.
Qed.

Lemma bubble_pass_sim h0 n i stR st h :
  0 <= i ->
  Sim h0 h stR st -> len (Locals.sortedArray st) = n ->
  returns (Heap.bubble_pass i stR) h
    (fun sR' h' => LoopSim h0 n sR' (bubble_pass i st) h').
Proof.
  intros Hi HS Hlen. unfold Heap.bubble_pass, bubble_pass.
  sim_length. rewrite Hlen.
  eapply returns_mono.
  - apply (for_range_sim (fun _ => LoopSim h0 n)) with (s := (false, st));
      [unfold LoopSim; cbn [fst snd]; by split_and!|].
    intros k sR s h1 Hk. apply bubble_body_sim; lia.
  - done.
Qed.

Lemma bubble_outer_sim h0 n fuel i stR st h :
  0 <= i ->
  Sim h0 h stR st -> len (Locals.sortedArray st) = n ->
  returns (Heap.bubble_outer fuel i stR) h
    (fun stR' h' => Sim h0 h' stR' (bubble_outer fuel i st)).
Proof.
  revert i stR st h. induction fuel as [|fuel IH]; intros i stR st h Hi HS Hlen.
  - by apply returns_ret.
  - cbn [Heap.bubble_outer bubble_outer]. apply returns_bind.
    eapply returns_mono; [by apply (bubble_pass_sim h0 n)|].
    intros [swR stR'] h'. destruct (bubble_pass i st) as [sw st'].
    intros (Hsw & HS' & Hlen'). cbn [fst snd] in *. subst swR.
    destruct sw; cbn [negb].
    + apply IH; [lia|done..].
    + by apply returns_ret.
Qed.

(** ** selectionSort *)

Lemma selection_body_sim h0 n i j sR s h :
  0 <= i -> j < n ->
  LoopSim h0 n sR s h /\ i <= fst s < j ->
  returns (Heap.selection_body j sR) h
    (fun sR' h' => LoopSim h0 n sR' (selection_body j s) h' /\
                   i <= fst (selection_body j s) < j + 1).
Proof.
  intros Hi Hj. destruct sR as [minR stR], s as [minIndex st].
  intros [(Hmin & HS%sim_tick & Hlen) Hrange]. cbn [fst snd] in *. subst minR.
  unfold Heap.selection_body, selection_body.
  sim_read. sim_read. autorewrite with locals.
  destruct (_ <? _); apply returns_ret; unfold LoopSim; cbn [fst snd];
    split_and!; done || lia.
Qed.

Lemma selection_pass_sim h0 n i stR st h :
  0 <= i ->
  Sim h0 h stR st /\ len (Locals.sortedArray st) = n ->
  returns (Heap.selection_pass i stR) h
    (fun stR' h' => Sim h0 h' stR' (selection_pass i st) /\
                    len (Locals.sortedArray (selection_pass i st)) = n).
Proof.
  intros Hi [HS Hlen]. unfold Heap.selection_pass, selection_pass.
  sim_length. rewrite Hlen. apply returns_bind. eapply returns_mono.
  - apply (for_range_sim
             (fun k sR s h => LoopSim h0 n sR s h /\ i <= fst s < k))
      with (s := (i, st)).
    + unfold LoopSim. cbn [fst snd]. split_and!; done || lia.
    + intros k sR s h1 Hk. apply selection_body_sim; lia.
  - cbv beta. intros [minR stR'] h'.
    destruct (for_range (i + 1) n selection_body (i, st)) as [minIndex st'].
    intros [(Hmin & HS' & Hlen') Hrange]. cbn [fst snd] in *. subst minR.
    destruct (Z.eqb_spec minIndex i) as [->|Hne]; cbn [negb].
    + by apply returns_ret.
    + sim_swap HS1. eapply returns_mono; [by apply sim_push|].
      intros stR2 h2 HS2. split; [done|].
      autorewrite with locals. by rewrite len_swap.
Qed.

(** ** insertionSort *)

Lemma insertion_while_index k key st :
  -1 <= fst (insertion_while k key st) < Z.of_nat k.
Proof.
  revert st. induction k as [|k IH]; intros st; cbn [insertion_while].
  - simpl. lia.
  - destruct (_ >? key).
    + match goal with |- context [insertion_while k key ?s] =>
        specialize (IH s) end. lia.
    + simpl. lia.
Qed.

Lemma insertion_while_sim h0 n (k : nat) key stR st h :
  Z.of_nat k < n ->
  Sim h0 h stR st -> len (Locals.sortedArray st) = n ->
  returns (Heap.insertion_while k key stR) h
    (fun sR' h' => LoopSim h0 n sR' (insertion_while k key st) h').
Proof.
  revert stR st h. induction k as [|k IH]; intros stR st h Hk HS Hlen.
  - apply returns_ret. by unfold LoopSim.
  - cbn [Heap.insertion_while insertion_while].
    apply sim_tick in HS. sim_read. autorewrite with locals.
    destruct (_ >? key).
    + sim_read. sim_write HS1. sim_push HS2.
      apply IH; [lia|done|]. autorewrite with locals. by rewrite len_set.
    + apply returns_ret. by unfold LoopSim.
Qed.

Lemma insertion_pass_sim h0 n i stR st h :
  1 <= i < n ->
  Sim h0 h stR st /\ len (Locals.sortedArray st) = n ->
  returns (Heap.insertion_pass i stR) h
    (fun stR' h' => Sim h0 h' stR' (insertion_pass i st) /\
                    len (Locals.sortedArray (insertion_pass i st)) = n).
Proof.
  intros Hi [HS Hlen]. unfold Heap.insertion_pass, insertion_pass.
  sim_read. apply returns_bind. eapply returns_mono.
  { apply (insertion_while_sim h0 n); [lia|done..]. }
  cbv beta. intros [jR stR'] h'.
  pose proof (insertion_while_index (Z.to_nat (i - 1 + 1))
                (get (Locals.sortedArray st) i) st) as Hj.
  destruct (insertion_while _ _ st) as [j st'].
  intros (Hjj & HS' & Hlen'). cbn [fst snd] in *. subst jR.
  sim_write HS1.
  destruct (Z.eqb_spec (j + 1) i); cbn [negb].
  - apply returns_ret. split; [done|]. autorewrite with locals. by rewrite len_set.
  - eapply returns_mono; [by apply sim_push|].
    intros stR2 h2 HS2. split; [done|]. autorewrite with locals. by rewrite len_set.
Qed.

(** ** quickSort *)

Lemma partition_body_sim h0 n low pivot j sR s h :
  0 <= low -> j < n ->
  LoopSim h0 n sR s h /\ low - 1 <= fst s < j ->
  returns (Heap.partition_body pivot j sR) h
    (fun sR' h' => LoopSim h0 n sR' (partition_body pivot j s) h' /\
                   low - 1 <= fst (partition_body pivot j s) < j + 1).
Proof.
  intros Hlow Hj. destruct sR as [iR stR], s as [i st].
  intros [(Hi & HS%sim_tick & Hlen) Hrange]. cbn [fst snd] in *. subst iR.
  unfold Heap.partition_body, partition_body.
  sim_read. autorewrite with locals.
  destruct (_ <? pivot); [destruct (Z.eqb_spec (i + 1) j); cbn [negb]|].
  - apply returns_ret. unfold LoopSim. cbn [fst snd]. split_and!; done || lia.
  - sim_swap HS1. sim_push HS2. apply returns_ret.
    unfold LoopSim. cbn [fst snd]. autorewrite with locals. rewrite len_swap.
    split_and!; done || lia.
  - apply returns_ret. unfold LoopSim. cbn [fst snd]. split_and!; done || lia.
Qed.

Lemma partition_sim h0 n low high stR st h :
  0 <= low -> low < high -> high < n ->
  Sim h0 h stR st -> len (Locals.sortedArray st) = n ->
  returns (Heap.partition stR low high) h
    (fun sR' h' => LoopSim h0 n sR' (partition st low high) h').
Proof.
  intros Hlow Hlt Hhigh HS Hlen. unfold Heap.partition, partition.
  sim_read. apply returns_bind. eapply returns_mono.
  - apply (for_range_sim
             (fun k sR s h => LoopSim h0 n sR s h /\ low - 1 <= fst s < k))
      with (s := (low - 1, st)).
    + unfold LoopSim. cbn [fst snd]. split_and!; done || lia.
    + intros k sR s h1 Hk. apply partition_body_sim; lia.
  - cbv beta. intros [iR stR'] h'.
    destruct (for_range low high _ (low - 1, st)) as [i st'].
    intros [(Hi & HS' & Hlen') Hrange]. cbn [fst snd] in *. subst iR.
    apply returns_bind.
    destruct (Z.eqb_spec (i + 1) high); cbn [negb].
    + apply returns_ret. apply returns_ret. by unfold LoopSim.
    + sim_swap HS1. eapply returns_mono; [by apply sim_push|].
      intros stR2 h2 HS2. apply returns_ret.
      unfold LoopSim. cbn [fst snd]. autorewrite with locals. by rewrite len_swap.
Qed.

Lemma quickSortHelper_sim h0 n fuel low high stR st h :
  (Z.to_nat (high - low) < fuel)%nat ->
  0 <= low -> high < n ->
  Sim h0 h stR st -> len (Locals.sortedArray st) = n ->
  returns (Heap.quickSortHelper fuel stR low high) h
    (fun stR' h' => Sim h0 h' stR' (quickSortHelper st low high) /\
                    len (Locals.sortedArray (quickSortHelper st low high)) = n).
Proof.
  revert low high stR st h.
  induction fuel as [|fuel IH]; intros low high stR st h Hfuel Hlow Hhigh HS Hlen;
    [lia|].
  cbn [Heap.quickSortHelper]. rewrite quickSortHelper_eq.
  destruct (Z.ltb_spec low high) as [Hlt|Hge]; [|by apply returns_ret].
  apply returns_bind. eapply returns_mono; [by apply (partition_sim h0 n)|].
  cbv beta. intros [pR stR1] h1.
  pose proof (partition_index st low high Hlt) as Hp.
  destruct (partition st low high) as [p st1].
  intros (Hpp & HS1 & Hlen1). cbn [fst snd] in *. subst pR.
  apply returns_bind. eapply returns_mono.
  { apply (IH low (p - 1)); [lia|lia|lia|done..]. }
  cbv beta. intros stR2 h2 [HS2 Hlen2].
  apply IH; [lia|lia|lia|done..].
Qed.

(** ** The executors and the dispatcher *)

(** A bundle of the store model, returned for a call on the store [h0],
    stands for a bundle of the value model: the objects of [h0] are as they
    were, and the arrays of the bundle are objects allocated during the
    call. *)
Record ResultSim (h0 h : Heap.heap) (rR : ResultRef.t) (r : Result.t) : Prop :=
  { rsim_prefix : h0 `prefix_of` h;
    rsim_fresh : (length h0 <= ResultRef.sortedArray rR)%nat;
    rsim_array : h !! ResultRef.sortedArray rR = Some (Result.sortedArray r);
    rsim_steps : Forall2 (step_sim h0 (ResultRef.sortedArray rR) h)
                         (ResultRef.steps rR) (Result.steps r);
    rsim_type : ResultRef.algorithmType rR = Result.algorithmType r;
    rsim_total : ResultRef.totalComparisons rR = Result.totalComparisons r }.

Lemma sim_epilogue h0 h name stR st :
  Sim h0 h stR st -> ResultSim h0 h (Heap.epilogue name stR) (epilogue name st).
Proof. intros [Hp Hf Ha Hc Hs]. by split. Qed.

Lemma bubbleSort_sim h0 arr v :
  h0 !! arr = Some v ->
  returns (Heap.bubbleSort arr) h0 (fun rR h' => ResultSim h0 h' rR (bubbleSort v)).
Proof.
  intros Harr. unfold Heap.bubbleSort, bubbleSort.
  apply returns_bind. eapply returns_mono; [by apply sim_prologue|].
  cbv beta. intros stR h HS. sim_length.
  apply returns_bind. eapply returns_mono.
  { by apply (bubble_outer_sim h0 (len v)). }
  cbv beta. intros stR' h' HS'. apply returns_ret. by apply sim_epilogue.
Qed.

Lemma selectionSort_sim h0 arr v :
  h0 !! arr = Some v ->
  returns (Heap.selectionSort arr) h0
    (fun rR h' => ResultSim h0 h' rR (selectionSort v)).
Proof.
  intros Harr. unfold Heap.selectionSort, selectionSort.
  apply returns_bind. eapply returns_mono; [by apply sim_prologue|].
  cbv beta. intros stR h HS. sim_length.
  apply returns_bind. eapply returns_mono.
  { apply (for_range_sim
             (fun _ stR st h => Sim h0 h stR st /\ len (Locals.sortedArray st) = len v))
      with (s := prologue v); [done|].
    intros k sR s h1 Hk. apply selection_pass_sim. lia. }
  cbv beta. intros stR' h' [HS' _]. apply returns_ret. by apply sim_epilogue.
Qed.

Lemma insertionSort_sim h0 arr v :
  h0 !! arr = Some v ->
  returns (Heap.insertionSort arr) h0
    (fun rR h' => ResultSim h0 h' rR (insertionSort v)).
Proof.
  intros Harr. unfold Heap.insertionSort, insertionSort.
  apply returns_bind. eapply returns_mono; [by apply sim_prologue|].
  cbv beta. intros stR h HS. sim_length.
  apply returns_bind. eapply returns_mono.
  { apply (for_range_sim
             (fun _ stR st h => Sim h0 h stR st /\ len (Locals.sortedArray st) = len v))
      with (s := prologue v); [done|].
    intros k sR s h1 Hk. apply insertion_pass_sim. simpl in Hk. lia. }
  cbv beta. intros stR' h' [HS' _]. apply returns_ret. by apply sim_epilogue.
Qed.

Lemma quickSort_sim h0 arr v :
  h0 !! arr = Some v ->
  returns (Heap.quickSort arr) h0 (fun rR h' => ResultSim h0 h' rR (quickSort v)).
Proof.
  intros Harr. unfold Heap.quickSort, quickSort.
  apply returns_bind. eapply returns_mono; [by apply sim_prologue|].
  cbv beta. intros stR h HS. sim_length.
  apply returns_bind. eapply returns_mono.
  { apply (quickSortHelper_sim h0 (len v)); [|lia| |done..]; simpl; lia. }
  cbv beta. intros stR' h' [HS' _]. apply returns_ret. by apply sim_epilogue.
Qed.

(** The outcome of [Heap.sort], called on [h0], against that of [sort]. *)
Definition OutcomeSim (h0 h : Heap.heap)
    (out : SortError + ResultRef.t) (out' : SortError + Result.t) : Prop :=
  match out, out' with
  | inl e, inl e' => e = e' /\ h = h0
  | inr rR, inr r => ResultSim h0 h rR r
  | _, _ => False
  end.

Lemma sort_sim env h0 arr v algorithm :
  h0 !! arr = Some v ->
  returns (Heap.sort Heap.SortingAlgorithms env (Heap.RArray arr) algorithm) h0
    (fun out h' =>
       OutcomeSim h0 h' out (sort SortingAlgorithms env (JsArray v) algorithm)).
Proof.
  intros Harr. unfold Heap.sort, sort.
  apply returns_bind. eexists _, _.
  split; [unfold Heap.lengthOf; by rewrite Harr|]. cbv beta.
  destruct (len v =? 0); [by apply returns_ret|].
  destruct (len v >? maxArraySize env); [by apply returns_ret|].
  apply returns_bind. eexists _, _.
  split; [unfold Heap.isAlreadySorted; by rewrite Harr|]. cbv beta.
  fold (isAlreadySorted v). destruct (isAlreadySorted v).
  { pose proof (lookup_lt_Some _ _ _ Harr) as Hlt.
    apply returns_bind. eexists _, _.
    split; [unfold Heap.copy; by rewrite Harr|]. cbv beta.
    apply returns_bind. eexists _, _.
    split; [unfold Heap.copy; by rewrite lookup_app_l, Harr|]. cbv beta.
    apply returns_ret. rewrite length_app. simpl. split; simpl.
    - rewrite <- app_assoc. by apply prefix_app_r.
    - lia.
    - replace (length h0 + 1)%nat with (length (h0 ++ [v]) + 0)%nat
        by (rewrite length_app; simpl; lia).
      by rewrite lookup_app_r, Nat.add_comm, Nat.add_sub by lia.
    - repeat constructor; simpl; [|lia..].
      rewrite lookup_app_l by (rewrite length_app; simpl; lia).
      by rewrite list_lookup_middle.
    - done.
    - done. }
  cbv zeta.
  repeat match goal with
         | |- context [String.eqb ?x ?y] => destruct (String.eqb x y)
         end.
  - apply returns_bind. eapply returns_mono; [by apply bubbleSort_sim|].
    intros rR h' Hr. by apply returns_ret.
  - apply returns_bind. eapply returns_mono; [by apply quickSort_sim|].
    intros rR h' Hr. by apply returns_ret.
  - apply returns_bind. eapply returns_mono; [by apply selectionSort_sim|].
    intros rR h' Hr. by apply returns_ret.
  - apply returns_bind. eapply returns_mono; [by apply insertionSort_sim|].
    intros rR h' Hr. by apply returns_ret.
  - by apply returns_ret.
Qed.

(** The bundle of the store model, read back from the store. *)
Definition deref_step (h : Heap.heap) (s : StepRef.t) : option Step.t :=
  a ← h !! StepRef.array s;
  Some (Step.mk a (StepRef.swapIndices s) (StepRef.comparisonCount s)).

Definition deref_result (h : Heap.heap) (r : ResultRef.t) : option Result.t :=
  steps ← mapM (deref_step h) (ResultRef.steps r);
  a ← h !! ResultRef.sortedArray r;
  Some (Result.mk steps a (ResultRef.algorithmType r) (ResultRef.totalComparisons r)).

Definition deref_outcome (h : Heap.heap) (out : SortError + ResultRef.t) :
    option (SortError + Result.t) :=
  match out with
  | inl e => Some (inl e)
  | inr r => inr <$> deref_result h r
  end.

Lemma deref_ResultSim h0 h rR r : ResultSim h0 h rR r -> deref_result h rR = Some r.
Proof.
  intros [Hp Hf Ha Hs Ht Hc]. unfold deref_result.
  assert (mapM (deref_step h) (ResultRef.steps rR) = Some (Result.steps r)) as ->.
  { apply mapM_Some. eapply Forall2_impl; [exact Hs|].
    intros sR [a i c] (H1 & _ & _ & H2 & H3). simpl in *.
    unfold deref_step. rewrite H1. simpl. by rewrite H2, H3. }
  simpl. rewrite Ha. simpl. destruct r. simpl in *. by rewrite Ht, Hc.
Qed.

(** The objects of the caller's store are untouched by a call, and the
    arrays of the bundle are none of them. *)
Lemma ResultSim_private h0 h rR r (a : nat) v :
  ResultSim h0 h rR r -> h0 !! a = Some v ->
  (forall b w, h0 !! b = Some w -> h !! b = Some w) /\
  ResultRef.sortedArray rR <> a /\
  Forall (fun s => StepRef.array s <> a) (ResultRef.steps rR).
Proof.
  intros [Hp Hf Ha Hs Ht Hc] Hv. pose proof (lookup_lt_Some _ _ _ Hv) as Hlt.
  split_and!.
  - intros b w Hb. by eapply prefix_lookup_Some.
  - lia.
  - clear -Hs Hlt. induction Hs as [|sR s lR l (_ & Hfresh & _) _ IH]; constructor;
      [lia|done].
Qed.
End HeapFacts.

(** X14.  The store model never faults on a call with an array, and the
    bundle it leaves in the store is the bundle of the value model: the
    indices the executors read and write are all inside the array. *)
Theorem sort_refines env (h : Heap.heap) (a : nat) (v : list Z) algorithm :
  h !! a = Some v ->
  exists out h',
    Heap.sort Heap.SortingAlgorithms env (Heap.RArray a) algorithm h = Some (out, h') /\
    deref_outcome h' out = Some (sort SortingAlgorithms env (JsArray v) algorithm).
Proof.
  intros Ha. destruct (sort_sim env h a v algorithm Ha) as (out & h' & Hrun & Hsim).
  exists out, h'. split; [done|]. unfold OutcomeSim in Hsim.
  destruct out as [e|rR], (sort SortingAlgorithms env (JsArray v) algorithm) as [e'|r];
    try done.
  - by destruct Hsim as [-> _].
  - simpl. by rewrite (deref_ResultSim _ _ _ _ Hsim).
Qed.

(** * The claims *)

(** C1.  For every valid input and each of the four algorithms, [sort]
    returns a bundle whose [sortedArray] is a permutation of the input and
    is non-decreasing; the first step of the trace holds the unmodified
    input and the last step holds [sortedArray]. *)
Theorem sort_permutation_sorted env arr algorithm :
  valid_input env arr -> supported algorithm ->
  exists r,
    sort SortingAlgorithms env (JsArray arr) algorithm = inr r /\
    Permutation (Result.sortedArray r) arr /\
    Sorted Z.le (Result.sortedArray r) /\
    Step.array <$> head (Result.steps r) = Some arr /\
    Step.array <$> last (Result.steps r) = Some (Result.sortedArray r).
Proof.
  intros Hvalid Hsup.
  destruct (sort_supported env arr algorithm Hvalid Hsup)
    as (r & Hr & [[Hs ->]|(_ & st & name & -> & Hok & Hperm & Hsorted)]);
    eexists; (split; [exact Hr|]).
  - by split_and!.
  - destruct (epilogue_trace arr name st Hok) as ((rest & Hsteps & _) & Hlast & _).
    split_and!; [done| |by rewrite Hsteps|done].
    apply sorted_between_Sorted. simpl. by rewrite (ok_len _ _ Hok).
Qed.

(** The theorem at work on [[3; 1; 2]] with ["quick"]. *)
Lemma sort_permutation_sorted_witness :
  valid_input defaultEnv [3; 1; 2] /\ supported "quick" /\
  exists r,
    sort SortingAlgorithms defaultEnv (JsArray [3; 1; 2]) "quick" = inr r /\
    Permutation (Result.sortedArray r) [3; 1; 2] /\
    Sorted Z.le (Result.sortedArray r) /\
    Step.array <$> head (Result.steps r) = Some [3; 1; 2] /\
    Step.array <$> last (Result.steps r) = Some (Result.sortedArray r).
Proof.
  assert (valid_input defaultEnv [3; 1; 2]) as Hvalid.
  { split; [discriminate|]. vm_compute. discriminate. }
  assert (supported "quick") as Hsup.
  { unfold supported. simpl. auto. }
  split; [exact Hvalid|]. split; [exact Hsup|].
  exact (sort_permutation_sorted defaultEnv [3; 1; 2] "quick" Hvalid Hsup).
Defined.

(** C2, the claim as stated fails: bubble sort of [[2; 1; 3]] records its
    only swap after the first comparison and makes two more comparisons, so
    the last step carries 1 and [totalComparisons] is 3. *)
Lemma totalComparisons_exceeds_last_count :
  valid_input defaultEnv [2; 1; 3] /\ supported "bubble" /\
  exists r,
    sort SortingAlgorithms defaultEnv (JsArray [2; 1; 3]) "bubble" = inr r /\
    Step.comparisonCount <$> last (Result.steps r) = Some 1%nat /\
    Result.totalComparisons r = 3%nat /\
    Step.comparisonCount <$> last (Result.steps r) <> Some (Result.totalComparisons r).
Proof.
  split; [split; [discriminate|vm_compute; discriminate]|].
  split; [unfold supported; simpl; auto|].
  eexists. split; [vm_compute; reflexivity|].
  simpl. split_and!; [done|done|discriminate].
Qed.

(** C2, amended.  For every valid input and every algorithm, the
    [comparisonCount] of the steps is non-decreasing along the trace, and
    no step, the last one included, carries more than [totalComparisons]:
    the comparisons made after the last recorded step are counted in
    [totalComparisons] only. *)
Theorem comparisonCount_monotone env arr algorithm :
  valid_input env arr -> supported algorithm ->
  exists r,
    sort SortingAlgorithms env (JsArray arr) algorithm = inr r /\
    (forall i j s t, (i <= j)%nat ->
       Result.steps r !! i = Some s -> Result.steps r !! j = Some t ->
       (Step.comparisonCount s <= Step.comparisonCount t)%nat) /\
    (forall s, last (Result.steps r) = Some s ->
       (Step.comparisonCount s <= Result.totalComparisons r)%nat).
Proof.
  intros Hvalid Hsup.
  destruct (sort_supported env arr algorithm Hvalid Hsup)
    as (r & Hr & [[Hs ->]|(_ & st & name & -> & Hok & _)]);
    eexists; (split; [exact Hr|]).
  - split.
    + intros [|i] [|j] s t Hij Hi Hj; simplify_eq/=; done.
    + intros s Hs'. by simplify_eq/=.
  - destruct (epilogue_trace arr name st Hok) as (_ & _ & Hmono & Hbound).
    split; [done|]. intros s Hs. rewrite last_lookup in Hs. by eapply Hbound.
Qed.

(** The theorem at work on the input of the counterexample. *)
Lemma comparisonCount_monotone_witness :
  valid_input defaultEnv [2; 1; 3] /\ supported "bubble" /\
  exists r,
    sort SortingAlgorithms defaultEnv (JsArray [2; 1; 3]) "bubble" = inr r /\
    (forall i j s t, (i <= j)%nat ->
       Result.steps r !! i = Some s -> Result.steps r !! j = Some t ->
       (Step.comparisonCount s <= Step.comparisonCount t)%nat) /\
    (forall s, last (Result.steps r) = Some s ->
       (Step.comparisonCount s <= Result.totalComparisons r)%nat).
Proof.
  assert (valid_input defaultEnv [2; 1; 3]) as Hvalid.
  { split; [discriminate|]. vm_compute. discriminate. }
  assert (supported "bubble") as Hsup.
  { unfold supported. simpl. auto. }
  split; [exact Hvalid|]. split; [exact Hsup|].
  exact (comparisonCount_monotone defaultEnv [2; 1; 3] "bubble" Hvalid Hsup).
Defined.

(** C3.  For every valid input of length [n] and every algorithm, the
    first step of the trace has no [swapIndices], and every later step
    carries two indices that lie in [[0, n)] and differ. *)
Theorem touched_indices_in_bounds env arr algorithm :
  valid_input env arr -> supported algorithm ->
  exists r first rest,
    sort SortingAlgorithms env (JsArray arr) algorithm = inr r /\
    Result.steps r = first :: rest /\
    Step.swapIndices first = None /\
    Forall (fun s => exists i j,
              Step.swapIndices s = Some (i, j) /\
              0 <= i < len arr /\ 0 <= j < len arr /\ i <> j) rest.
Proof.
  intros Hvalid Hsup.
  destruct (sort_supported env arr algorithm Hvalid Hsup)
    as (r & Hr & [[Hs ->]|(_ & st & name & -> & Hok & _)]).
  - eexists _, _, []. split; [exact Hr|]. by split_and!.
  - destruct (epilogue_trace arr name st Hok) as ((rest & Hsteps & Hrest) & _).
    eexists _, _, rest. split; [exact Hr|]. by split_and!.
Qed.

(** The theorem at work on [[4; 3; 2; 1]] with ["insertion"]. *)
Lemma touched_indices_in_bounds_witness :
  valid_input defaultEnv [4; 3; 2; 1] /\ supported "insertion" /\
  exists r first rest,
    sort SortingAlgorithms defaultEnv (JsArray [4; 3; 2; 1]) "insertion" = inr r /\
    Result.steps r = first :: rest /\
    Step.swapIndices first = None /\
    Forall (fun s => exists i j,
              Step.swapIndices s = Some (i, j) /\
              0 <= i < len [4; 3; 2; 1] /\ 0 <= j < len [4; 3; 2; 1] /\ i <> j) rest.
Proof.
  assert (valid_input defaultEnv [4; 3; 2; 1]) as Hvalid.
  { split; [discriminate|]. vm_compute. discriminate. }
  assert (supported "insertion") as Hsup.
  { unfold supported. simpl. auto 6. }
  split; [exact Hvalid|]. split; [exact Hsup|].
  exact (touched_indices_in_bounds defaultEnv [4; 3; 2; 1] "insertion" Hvalid Hsup).
Defined.

(** C4.  For every valid input that is already non-decreasing (a
    single-element input is) and every supported identifier, [sort] returns
    a trace of exactly one step, the initial snapshot, and
    [totalComparisons = 0], whatever the executors of the receiver are: in
    the store model they may even fault, and the call allocates the two
    copies of the bundle and nothing else.  No executor is invoked. *)
Theorem sort_already_sorted (this : Class) (thisR : Heap.Class)
    env arr algorithm (h : Heap.heap) (a : nat) :
  valid_input env arr -> Sorted Z.le arr -> supported algorithm ->
  (exists r,
     sort this env (JsArray arr) algorithm = inr r /\
     Result.steps r = [Step.mk arr None 0] /\
     length (Result.steps r) = 1%nat /\
     Result.totalComparisons r = 0%nat) /\
  (h !! a = Some arr ->
   exists snapshot final,
     Heap.sort thisR env (Heap.RArray a) algorithm h =
       Some (inr (ResultRef.mk [StepRef.mk snapshot None 0] final algorithm 0),
             h ++ [arr; arr])).
Proof.
  intros Hvalid Hs Hsup. split.
  - exists (fastPath arr algorithm). split; [by apply sort_fast_path|done].
  - intros Ha. destruct (valid_input_checks env arr Hvalid) as [H0 Hmax].
    apply isAlreadySorted_spec in Hs.
    exists (length h), (length (h ++ [arr])). unfold Heap.sort.
    rewrite (bind_Some _ _ h (len arr) h)
      by (unfold Heap.lengthOf; by rewrite Ha).
    rewrite H0, Hmax.
    rewrite (bind_Some _ _ h true h)
      by (unfold Heap.isAlreadySorted; rewrite Ha;
          fold (isAlreadySorted arr); by rewrite Hs).
    rewrite (bind_Some _ _ h (length h) (h ++ [arr]))
      by (unfold Heap.copy; by rewrite Ha).
    rewrite (bind_Some _ _ (h ++ [arr]) (length (h ++ [arr])) ((h ++ [arr]) ++ [arr])).
    + by rewrite <- app_assoc.
    + unfold Heap.copy. rewrite lookup_app_l by by eapply lookup_lt_Some.
      by rewrite Ha.
Qed.

(** The theorem at work on a single-element input, with a receiver whose
    executors all fault in the store model. *)
Lemma sort_already_sorted_witness :
  let faulting : Heap.Class :=
    {| Heap.this_bubbleSort := fun _ _ => None;
       Heap.this_quickSort := fun _ _ => None;
       Heap.this_selectionSort := fun _ _ => None;
       Heap.this_insertionSort := fun _ _ => None |} in
  valid_input defaultEnv [7] /\ Sorted Z.le [7] /\ supported "QUICK" /\
  (exists r,
     sort SortingAlgorithms defaultEnv (JsArray [7]) "QUICK" = inr r /\
     Result.steps r = [Step.mk [7] None 0] /\
     length (Result.steps r) = 1%nat /\
     Result.totalComparisons r = 0%nat) /\
  exists snapshot final,
    Heap.sort faulting defaultEnv (Heap.RArray 0%nat) "QUICK" [[7]] =
      Some (inr (ResultRef.mk [StepRef.mk snapshot None 0] final "QUICK" 0),
            [[7]] ++ [[7]; [7]]).
Proof.
  intros faulting.
  assert (valid_input defaultEnv [7]) as Hvalid.
  { split; [discriminate|]. vm_compute. discriminate. }
  assert (Sorted Z.le [7]) as Hs by repeat constructor.
  assert (supported "QUICK") as Hsup.
  { unfold supported. simpl. auto. }
  destruct (sort_already_sorted SortingAlgorithms faulting defaultEnv [7] "QUICK"
              [[7]] 0%nat Hvalid Hs Hsup) as [Hvalue Hstore].
  split; [exact Hvalid|]. split; [exact Hs|]. split; [exact Hsup|].
  split; [exact Hvalue|]. exact (Hstore eq_refl).
Defined.

(** C5, the code at the failing input: on the sorted valid input
    [[1; 2; 3]] the identifier ["heap"] is not rejected; the fast path
    returns before the [switch] is reached. *)
Theorem sort_heap_on_sorted_input :
  sort SortingAlgorithms defaultEnv (JsArray [1; 2; 3]) "heap" =
    inr (Result.mk [Step.mk [1; 2; 3] None 0] [1; 2; 3] "heap" 0).
Proof. reflexivity. Qed.

(** Where the [switch] is reached, an identifier outside the four is
    rejected. *)
Lemma sort_unsupported_unsorted this env arr algorithm :
  valid_input env arr -> ~ Sorted Z.le arr -> ~ supported algorithm ->
  sort this env (JsArray arr) algorithm = inl (UnsupportedAlgorithmKind algorithm).
Proof.
  intros Hvalid Hns Hsup. rewrite sort_slow_path by done. cbn zeta.
  unfold supported in Hsup. simpl in Hsup.
  repeat match goal with
         | |- context [String.eqb ?x ?y] =>
             destruct (String.eqb_spec x y) as [Heq|_];
             [exfalso; apply Hsup; rewrite Heq; auto 6|]
         end.
  done.
Qed.

(** C6.  The three precondition checks of the dispatcher fail with three
    different errors and return no bundle: an argument that is not an
    array, the empty array, and a (non-empty) array longer than the
    configured maximum. *)
Theorem sort_precondition_failures this env algorithm :
  (forall v, isArray v = false ->
     sort this env v algorithm = inl InvalidInputKind) /\
  sort this env (JsArray []) algorithm = inl EmptyInputKind /\
  (forall arr, arr <> [] -> len arr > maxArraySize env ->
     sort this env (JsArray arr) algorithm = inl SizeLimitExceededKind) /\
  InvalidInputKind <> EmptyInputKind /\
  EmptyInputKind <> SizeLimitExceededKind /\
  InvalidInputKind <> SizeLimitExceededKind /\
  errorMessage InvalidInputKind <> errorMessage EmptyInputKind /\
  errorMessage EmptyInputKind <> errorMessage SizeLimitExceededKind /\
  errorMessage InvalidInputKind <> errorMessage SizeLimitExceededKind.
Proof.
  split_and!; try discriminate.
  - by intros [].
  - done.
  - intros arr Hne Hgt. unfold sort.
    destruct (Z.eqb_spec (len arr) 0) as [H0|_].
    + destruct arr; [done|]. unfold len in H0. simpl in H0. lia.
    + destruct (Z.gtb_spec (len arr) (maxArraySize env)); [done|lia].
Qed.

(** The theorem at work with a maximum of 2: a string, the empty array and
    an array of three elements. *)
Lemma sort_precondition_failures_witness :
  let env := {| MAX_ARRAY_SIZE := Some 2 |} in
  isArray (JsString "5,3,1") = false /\
  [5; 3; 1] <> [] /\ len [5; 3; 1] > maxArraySize env /\
  sort SortingAlgorithms env (JsString "5,3,1") "bubble" = inl InvalidInputKind /\
  sort SortingAlgorithms env (JsArray []) "bubble" = inl EmptyInputKind /\
  sort SortingAlgorithms env (JsArray [5; 3; 1]) "bubble" = inl SizeLimitExceededKind.
Proof.
  intros env.
  destruct (sort_precondition_failures SortingAlgorithms env "bubble")
    as (Hinvalid & Hempty & Hsize & _).
  assert (isArray (JsString "5,3,1") = false) as H1 by reflexivity.
  assert ([5; 3; 1] <> []) as H2 by discriminate.
  assert (len [5; 3; 1] > maxArraySize env) as H3 by reflexivity.
  split; [exact H1|]. split; [exact H2|]. split; [exact H3|].
  split; [exact (Hinvalid _ H1)|]. split; [exact Hempty|].
  exact (Hsize _ H2 H3).
Defined.

(** C7, the claim as stated fails: the trace of bubble sort on
    [[5; 3; 1; 4; 2]] does not consist of the initial snapshot and four
    swap steps. *)
Lemma bubble_golden_trace_not_four_swaps :
  exists r,
    sort SortingAlgorithms defaultEnv (JsArray [5; 3; 1; 4; 2]) "bubble" = inr r /\
    length (Result.steps r) <> (1 + 4)%nat.
Proof. eexists. split; [vm_compute; reflexivity|]. simpl. lia. Qed.

(** C7, amended.  On input [[5; 3; 1; 4; 2]] with algorithm [bubble] the
    result has [sortedArray = [1; 2; 3; 4; 5]], [totalComparisons = 10]
    (all four passes run: 4 + 3 + 2 + 1 comparisons) and exactly 7 swap
    steps after the initial snapshot, one per inversion of the input, the
    first being [(0, 1)] with snapshot [[3; 5; 1; 4; 2]]. *)
Theorem bubble_golden_trace :
  exists r,
    sort SortingAlgorithms defaultEnv (JsArray [5; 3; 1; 4; 2]) "bubble" = inr r /\
    Result.sortedArray r = [1; 2; 3; 4; 5] /\
    Result.totalComparisons r = 10%nat /\
    length (Result.steps r) = (1 + 7)%nat /\
    Result.steps r !! 1%nat = Some (Step.mk [3; 5; 1; 4; 2] (Some (0, 1)) 1) /\
    map Step.swapIndices (Result.steps r) =
      [None; Some (0, 1); Some (1, 2); Some (2, 3); Some (3, 4);
       Some (0, 1); Some (2, 3); Some (1, 2)] /\
    map Step.comparisonCount (Result.steps r) = [0; 1; 2; 3; 4; 5; 7; 9]%nat.
Proof. eexists. split; [vm_compute; reflexivity|]. by split_and!. Qed.

(** C8.  For every valid input that is not already sorted, the bundle
    [sort] returns for ["insertion"] is the one the specification words:
    for each position [i] from 1 to [n - 1], one comparison per left
    neighbour examined, one step [(j, j + 1)] per leftward shift, then
    exactly one placement step [(restingIndex, i)] when the key does not
    rest at [i], and none when it does. *)
Theorem insertionSort_as_specified env arr :
  valid_input env arr -> ~ Sorted Z.le arr ->
  sort SortingAlgorithms env (JsArray arr) "insertion" =
    inr (InsertionSpec.result arr).
Proof.
  intros Hvalid Hns. rewrite sort_slow_path by done. simpl.
  by rewrite insertionSort_refines.
Qed.

(** The theorem at work on [[2; 3; 1]], with the bundle the specification
    words for it. *)
Lemma insertionSort_as_specified_witness :
  valid_input defaultEnv [2; 3; 1] /\ ~ Sorted Z.le [2; 3; 1] /\
  sort SortingAlgorithms defaultEnv (JsArray [2; 3; 1]) "insertion" =
    inr (InsertionSpec.result [2; 3; 1]) /\
  InsertionSpec.result [2; 3; 1] =
    Result.mk
      [Step.mk [2; 3; 1] None 0;
       Step.mk [2; 3; 3] (Some (1, 2)) 2;
       Step.mk [2; 2; 3] (Some (0, 1)) 3;
       Step.mk [1; 2; 3] (Some (0, 2)) 3]
      [1; 2; 3] "insertion" 3.
Proof.
  assert (valid_input defaultEnv [2; 3; 1]) as Hvalid.
  { split; [discriminate|]. vm_compute. discriminate. }
  assert (~ Sorted Z.le [2; 3; 1]) as Hns.
  { intros Hs%isAlreadySorted_spec. discriminate. }
  split; [exact Hvalid|]. split; [exact Hns|]. split.
  - exact (insertionSort_as_specified defaultEnv [2; 3; 1] Hvalid Hns).
  - reflexivity.
Defined.

(** C9.  [sort] never mutates the caller's array: called with a reference
    [a] to an array with the elements [v], for whatever identifier, it
    returns, and afterwards [a] still holds [v], as every object of the
    caller's store holds what it held; the working array and the snapshots
    of a returned bundle are objects other than [a].  The same holds of
    each executor called on [a] directly. *)
Theorem sort_keeps_caller_array env (h : Heap.heap) (a : nat) (v : list Z) algorithm :
  h !! a = Some v ->
  (exists out h',
     Heap.sort Heap.SortingAlgorithms env (Heap.RArray a) algorithm h = Some (out, h') /\
     h' !! a = Some v /\
     (forall b w, h !! b = Some w -> h' !! b = Some w) /\
     (forall r, out = inr r ->
        ResultRef.sortedArray r <> a /\
        Forall (fun s => StepRef.array s <> a) (ResultRef.steps r))) /\
  (forall executor,
     In executor [Heap.bubbleSort; Heap.quickSort;
                  Heap.selectionSort; Heap.insertionSort] ->
     exists r h',
       executor a h = Some (r, h') /\
       h' !! a = Some v /\
       (forall b w, h !! b = Some w -> h' !! b = Some w) /\
       ResultRef.sortedArray r <> a /\
       Forall (fun s => StepRef.array s <> a) (ResultRef.steps r)).
Proof.
  intros Ha. split.
  - destruct (sort_sim env h a v algorithm Ha) as (out & h' & Hrun & Hsim).
    exists out, h'. split; [done|]. unfold OutcomeSim in Hsim.
    destruct out as [e|rR], (sort SortingAlgorithms env (JsArray v) algorithm) as [e'|r];
      try done.
    + destruct Hsim as [_ ->]. split_and!; [done|done|]. intros r [=].
    + destruct (ResultSim_private _ _ _ _ a v Hsim Ha) as (Hframe & Hw & Hsteps).
      split_and!; [by apply Hframe|done|]. by intros r' [= <-].
  - intros executor Hin. simpl in Hin.
    assert (exists r, returns (executor a) h (fun rR h' => ResultSim h h' rR r))
      as (r & rR & h' & Hrun & Hsim).
    { destruct Hin as [<-|[<-|[<-|[<-|[]]]]]; eexists.
      - by apply bubbleSort_sim.
      - by apply quickSort_sim.
      - by apply selectionSort_sim.
      - by apply insertionSort_sim. }
    destruct (ResultSim_private _ _ _ _ a v Hsim Ha) as (Hframe & Hw & Hsteps).
    exists rR, h'. split_and!; [done|by apply Hframe|done..].
Qed.

(** The theorem at work on a store of two arrays, for a call with the
    second. *)
Lemma sort_keeps_caller_array_witness :
  let h : Heap.heap := [[7; 7]; [3; 1; 2]] in
  h !! 1%nat = Some [3; 1; 2] /\
  exists out h',
    Heap.sort Heap.SortingAlgorithms defaultEnv (Heap.RArray 1%nat) "selection" h
      = Some (out, h') /\
    h' !! 1%nat = Some [3; 1; 2] /\
    (forall b w, h !! b = Some w -> h' !! b = Some w) /\
    (forall r, out = inr r ->
       ResultRef.sortedArray r <> 1%nat /\
       Forall (fun s => StepRef.array s <> 1%nat) (ResultRef.steps r)).
Proof.
  intros h. assert (h !! 1%nat = Some [3; 1; 2]) as Ha by reflexivity.
  split; [exact Ha|].
  exact (proj1 (sort_keeps_caller_array defaultEnv h 1%nat [3; 1; 2] "selection" Ha)).
Defined.

(** C10.  The fast path comes before the [switch]: for every valid input
    that is already non-decreasing and every identifier whatsoever, [sort]
    returns the single-step bundle labelled with that identifier, with
    [totalComparisons = 0], and not [UnsupportedAlgorithmKind]. *)
Theorem sort_fast_path_before_validation env arr (algorithm : string) :
  valid_input env arr -> Sorted Z.le arr ->
  exists r,
    sort SortingAlgorithms env (JsArray arr) algorithm = inr r /\
    Result.steps r = [Step.mk arr None 0] /\
    Result.sortedArray r = arr /\
    Result.algorithmType r = algorithm /\
    Result.totalComparisons r = 0%nat.
Proof.
  intros Hvalid Hs. exists (fastPath arr algorithm).
  split; [by apply sort_fast_path|done].
Qed.

(** The theorem at work on [[2; 2; 2]] with ["heap"]. *)
Lemma sort_fast_path_before_validation_witness :
  valid_input defaultEnv [2; 2; 2] /\ Sorted Z.le [2; 2; 2] /\
  ~ supported "heap" /\
  exists r,
    sort SortingAlgorithms defaultEnv (JsArray [2; 2; 2]) "heap" = inr r /\
    Result.steps r = [Step.mk [2; 2; 2] None 0] /\
    Result.sortedArray r = [2; 2; 2] /\
    Result.algorithmType r = "heap"%string /\
    Result.totalComparisons r = 0%nat.
Proof.
  assert (valid_input defaultEnv [2; 2; 2]) as Hvalid.
  { split; [discriminate|]. vm_compute. discriminate. }
  assert (Sorted Z.le [2; 2; 2]) as Hs.
  { repeat constructor; lia. }
  split; [exact Hvalid|]. split; [exact Hs|]. split.
  { unfold supported. simpl. intros [H|[H|[H|[H|[]]]]]; discriminate. }
  exact (sort_fast_path_before_validation defaultEnv [2; 2; 2] "heap" Hvalid Hs).
Defined.

(** * Further properties of the code *)

(** ** The executors, called directly *)

(** What [Finished] gives for the bundle. *)
Lemma Finished_bundle input name st :
  Finished input st ->
  let r := epilogue name st in
  Permutation (Result.sortedArray r) input /\
  Sorted Z.le (Result.sortedArray r) /\
  Step.array <$> head (Result.steps r) = Some input /\
  Step.array <$> last (Result.steps r) = Some (Result.sortedArray r).
Proof.
  intros (Hok & Hperm & Hsorted).
  destruct (epilogue_trace input name st Hok) as ((rest & Hsteps & _) & Hlast & _).
  cbv zeta. split_and!; [done| |by rewrite Hsteps|done].
  apply sorted_between_Sorted. simpl. by rewrite (ok_len _ _ Hok).
Qed.

(** X1.  Each of the four executors, called directly on any array, the
    empty one and those the dispatcher would reject or short-cut included,
    returns a non-decreasing permutation of it, with a trace that starts
    from the array and ends in the array returned. *)
Theorem executors_sort_every_array :
  Forall (fun executor : list Z -> Result.t =>
            forall arr,
              Permutation (Result.sortedArray (executor arr)) arr /\
              Sorted Z.le (Result.sortedArray (executor arr)) /\
              Step.array <$> head (Result.steps (executor arr)) = Some arr /\
              Step.array <$> last (Result.steps (executor arr)) =
                Some (Result.sortedArray (executor arr)))
         [bubbleSort; quickSort; selectionSort; insertionSort].
Proof.
  constructor; [|constructor; [|constructor; [|constructor; [|constructor]]]];
    intros arr.
  - destruct (bubbleSort_sorts arr) as (st & -> & Hst). by apply Finished_bundle.
  - destruct (quickSort_sorts arr) as (st & -> & Hst). by apply Finished_bundle.
  - destruct (selectionSort_sorts arr) as (st & -> & Hst). by apply Finished_bundle.
  - destruct (insertionSort_sorts arr) as (st & -> & Hst). by apply Finished_bundle.
Qed.

Lemma sorted_permutation_unique (l1 l2 : list Z) :
  Sorted Z.le l1 -> Sorted Z.le l2 -> Permutation l1 l2 -> l1 = l2.
Proof. intros H1 H2 Hp. by eapply (Sorted_unique Z.le). Qed.

(** X2.  The four executors agree on the array they return, whatever the
    input: a comparison of algorithms on one array compares traces and
    counters, never results. *)
Theorem executors_agree arr :
  Result.sortedArray (quickSort arr) = Result.sortedArray (bubbleSort arr) /\
  Result.sortedArray (selectionSort arr) = Result.sortedArray (bubbleSort arr) /\
  Result.sortedArray (insertionSort arr) = Result.sortedArray (bubbleSort arr).
Proof.
  destruct (bubbleSort_sorts arr) as (st1 & -> & Hok1 & Hp1 & Hs1).
  destruct (quickSort_sorts arr) as (st2 & -> & Hok2 & Hp2 & Hs2).
  destruct (selectionSort_sorts arr) as (st3 & -> & Hok3 & Hp3 & Hs3).
  destruct (insertionSort_sorts arr) as (st4 & -> & Hok4 & Hp4 & Hs4).
  simpl.
  assert (forall st, TraceOk arr st -> sorted_between (Locals.sortedArray st) 0 (len arr) ->
                     Sorted Z.le (Locals.sortedArray st)) as Hsorted.
  { intros st Hok Hs. apply sorted_between_Sorted. by rewrite (ok_len _ _ Hok). }
  split_and!; apply sorted_permutation_unique; auto;
    by rewrite Hp1.
Qed.

(** ** The dispatcher *)

(** X3.  For a valid input and a supported identifier, the trace [sort]
    returns has the initial snapshot as its only step exactly when the
    input is already non-decreasing: the step count the routes report,
    [steps.length - 1], is 0 for sorted inputs and for no others. *)
Theorem single_step_iff_already_sorted env arr algorithm :
  valid_input env arr -> supported algorithm ->
  exists r,
    sort SortingAlgorithms env (JsArray arr) algorithm = inr r /\
    (length (Result.steps r) = 1%nat <-> Sorted Z.le arr).
Proof.
  intros Hvalid Hsup.
  destruct (sort_supported env arr algorithm Hvalid Hsup)
    as (r & Hr & [[Hs ->]|(Hns & st & name & -> & Hfin)]);
    (exists r || eexists); (split; [exact Hr|]).
  - done.
  - split; [|done]. intros Hlen. exfalso. apply Hns.
    destruct (Finished_bundle arr name st Hfin) as (_ & Hsorted & Hhead & Hlast).
    destruct (Result.steps (epilogue name st)) as [|s [|s' steps]] eqn:E;
      simplify_eq/=.
    by rewrite Hlast.
Qed.

(** The theorem at work on an input that is not sorted. *)
Lemma single_step_iff_already_sorted_witness :
  valid_input defaultEnv [2; 1] /\ supported "selection" /\
  exists r,
    sort SortingAlgorithms defaultEnv (JsArray [2; 1]) "selection" = inr r /\
    (length (Result.steps r) = 1%nat <-> Sorted Z.le [2; 1]).
Proof.
  assert (valid_input defaultEnv [2; 1]) as Hvalid.
  { split; [discriminate|]. vm_compute. discriminate. }
  assert (supported "selection") as Hsup.
  { unfold supported. simpl. auto. }
  split; [exact Hvalid|]. split; [exact Hsup|].
  exact (single_step_iff_already_sorted defaultEnv [2; 1] "selection" Hvalid Hsup).
Defined.

(** ** The [Session] model and the record of the route *)

Lemma toLowerCase_isIn (s : string) :
  In s ["bubble"; "quick"; "merge"; "selection"; "insertion"]%string ->
  toLowerCase s = s.
Proof. simpl. intros [<-|[<-|[<-|[<-|[<-|[]]]]]]; reflexivity. Qed.

(** The bundle of [sort] with its label. *)
Lemma sort_supported_label env arr algorithm :
  valid_input env arr -> supported algorithm ->
  exists r,
    sort SortingAlgorithms env (JsArray arr) algorithm = inr r /\
    Permutation (Result.sortedArray r) arr /\
    Result.steps r <> [] /\
    ((Sorted Z.le arr /\ Result.algorithmType r = algorithm) \/
     (~ Sorted Z.le arr /\ Result.algorithmType r = toLowerCase algorithm)).
Proof.
  intros Hvalid Hsup.
  assert (forall st, TraceOk arr st -> Locals.steps st <> []) as Hne.
  { intros st [(rest & -> & _) _ _ _]. done. }
  destruct (isAlreadySorted arr) eqn:E.
  - apply isAlreadySorted_spec in E. exists (fastPath arr algorithm).
    split; [by apply sort_fast_path|]. split; [done|]. split; [done|]. by left.
  - assert (~ Sorted Z.le arr) as Hns.
    { intros Hs%isAlreadySorted_spec. congruence. }
    rewrite sort_slow_path by done. cbn zeta.
    unfold supported in Hsup. simpl in Hsup.
    destruct Hsup as [<-|[<-|[<-|[<-|[]]]]]; simpl.
    + destruct (bubbleSort_sorts arr) as (st & -> & Hok%Hne & Hp & _); eauto 10.
    + destruct (quickSort_sorts arr) as (st & -> & Hok%Hne & Hp & _); eauto 10.
    + destruct (selectionSort_sorts arr) as (st & -> & Hok%Hne & Hp & _); eauto 10.
    + destruct (insertionSort_sorts arr) as (st & -> & Hok%Hne & Hp & _); eauto 10.
Qed.

(** X4.  The record the route [POST /] builds from the bundle [sort]
    returns for a valid input always passes the [beforeCreate] hook of the
    model (the two arrays have one length) and the [min: 0] validator of
    [totalSteps].  Its [algorithmType] is the identifier in lower case, and
    passes the [isIn] validator, whenever an executor ran; on the fast path
    it passes only if the caller wrote the identifier in lower case. *)
Theorem session_record_validation env arr algorithm :
  valid_input env arr -> supported algorithm ->
  exists r,
    sort SortingAlgorithms env (JsArray arr) algorithm = inr r /\
    beforeCreate (sessionFields arr r) = None /\
    totalSteps_valid (sessionFields arr r) = true /\
    (~ Sorted Z.le arr ->
       Result.algorithmType r = toLowerCase algorithm /\
       algorithmType_valid (sessionFields arr r) = true) /\
    (Sorted Z.le arr ->
       (algorithmType_valid (sessionFields arr r) = true <->
        toLowerCase algorithm = algorithm)).
Proof.
  intros Hvalid Hsup.
  destruct (sort_supported_label env arr algorithm Hvalid Hsup)
    as (r & Hr & Hperm & Hsteps & Hlabel).
  exists r. split; [exact Hr|]. split_and!.
  - unfold beforeCreate, sessionFields, len. simpl.
    rewrite (Permutation_length Hperm). by rewrite Z.eqb_refl.
  - unfold totalSteps_valid, sessionFields. simpl.
    apply Z.leb_le. destruct (Result.steps r); [done|simpl; lia].
  - intros Hns. destruct Hlabel as [[Hs _]|[_ Hl]]; [done|].
    split; [done|]. unfold algorithmType_valid, sessionFields. simpl. rewrite Hl.
    unfold supported in Hsup. simpl in Hsup.
    destruct Hsup as [<-|[<-|[<-|[<-|[]]]]]; reflexivity.
  - intros Hs. destruct Hlabel as [[_ Hl]|[Hns _]]; [|done].
    unfold algorithmType_valid, sessionFields. cbn [algorithmType]. rewrite Hl. split.
    + intros Hin. apply toLowerCase_isIn.
      apply existsb_exists in Hin as (x & Hx & Heq).
      apply String.eqb_eq in Heq. by subst.
    + intros Heq. unfold supported in Hsup. rewrite Heq in Hsup. simpl in Hsup.
      destruct Hsup as [<-|[<-|[<-|[<-|[]]]]]; reflexivity.
Qed.

(** The theorem at work on a sorted input with the identifier in capitals:
    the record's label is rejected by [isIn]. *)
Lemma session_record_validation_witness :
  valid_input defaultEnv [1; 2] /\ supported "BUBBLE" /\
  exists r,
    sort SortingAlgorithms defaultEnv (JsArray [1; 2]) "BUBBLE" = inr r /\
    beforeCreate (sessionFields [1; 2] r) = None /\
    totalSteps_valid (sessionFields [1; 2] r) = true /\
    (~ Sorted Z.le [1; 2] ->
       Result.algorithmType r = toLowerCase "BUBBLE" /\
       algorithmType_valid (sessionFields [1; 2] r) = true) /\
    (Sorted Z.le [1; 2] ->
       (algorithmType_valid (sessionFields [1; 2] r) = true <->
        toLowerCase "BUBBLE" = "BUBBLE"%string)).
Proof.
  assert (valid_input defaultEnv [1; 2]) as Hvalid.
  { split; [discriminate|]. vm_compute. discriminate. }
  assert (supported "BUBBLE") as Hsup.
  { unfold supported. simpl. auto. }
  split; [exact Hvalid|]. split; [exact Hsup|].
  exact (session_record_validation defaultEnv [1; 2] "BUBBLE" Hvalid Hsup).
Defined.

(** X5.  The validator [isValidArray] of the [Session] model accepts
    nothing: since [>] binds tighter than [||], its size test is always
    truthy, so it throws for every value.  In particular, every array that
    [sort] accepts is rejected for its size, whatever [MAX_ARRAY_SIZE]
    is. *)
Theorem isValidArray_rejects_every_value env :
  (forall value, isValidArray env value <> None) /\
  (forall arr algorithm,
     valid_input env arr -> supported algorithm ->
     (exists r, sort SortingAlgorithms env (JsArray arr) algorithm = inr r) /\
     isValidArray env (JsArray arr) = Some SizeCannotExceed).
Proof.
  assert (forall n, truthy (jsOr (PBoolean (gtParsed n (MAX_ARRAY_SIZE env)))
                                 (PNumber 1000)) = true) as Htruthy.
  { intros n. unfold jsOr. simpl.
    by destruct (gtParsed n (MAX_ARRAY_SIZE env)). }
  split.
  - intros [| | | | |a]; try done. unfold isValidArray.
    rewrite Htruthy. by destruct (len a =? 0).
  - intros arr algorithm Hvalid Hsup. split.
    + destruct (sort_supported env arr algorithm Hvalid Hsup) as (r & Hr & _). eauto.
    + destruct (valid_input_checks env arr Hvalid) as [H0 _].
      unfold isValidArray. by rewrite H0, Htruthy.
Qed.

(** The theorem at work on a one-element array under the default limit. *)
Lemma isValidArray_rejects_every_value_witness :
  valid_input defaultEnv [5] /\ supported "quick" /\
  (exists r, sort SortingAlgorithms defaultEnv (JsArray [5]) "quick" = inr r) /\
  isValidArray defaultEnv (JsArray [5]) = Some SizeCannotExceed.
Proof.
  assert (valid_input defaultEnv [5]) as Hvalid.
  { split; [discriminate|]. vm_compute. discriminate. }
  assert (supported "quick") as Hsup.
  { unfold supported. simpl. auto. }
  split; [exact Hvalid|]. split; [exact Hsup|].
  exact (proj2 (isValidArray_rejects_every_value defaultEnv) [5] "quick"%string
               Hvalid Hsup).
Defined.

(** ** The table of complexities *)

(** X6.  [getAlgorithmComplexity] finds an entry of its table exactly for
    the identifiers the [switch] of [sort] accepts, with the same reading of
    upper and lower case: a successful sort by an executor always comes with
    a complexity. *)
Theorem complexity_entry_iff_supported algorithm arraySize :
  supported algorithm <->
  exists c, getAlgorithmComplexity algorithm arraySize = Entry c.
Proof.
  unfold supported, getAlgorithmComplexity, complexities. simpl.
  repeat match goal with
         | |- context [String.eqb ?x ?y] => destruct (String.eqb_spec x y) as [->|?]
         end; split; eauto 6; try (intros [c [=]]).
  intros [?|[?|[?|[?|[]]]]]; congruence.
Qed.

(** ** The store model *)

(** The theorem [sort_refines] at work on a store of one array. *)
Lemma sort_refines_witness :
  let h : Heap.heap := [[3; 1; 2]] in
  h !! 0%nat = Some [3; 1; 2] /\
  exists out h',
    Heap.sort Heap.SortingAlgorithms defaultEnv (Heap.RArray 0%nat) "insertion" h
      = Some (out, h') /\
    deref_outcome h' out =
      Some (sort SortingAlgorithms defaultEnv (JsArray [3; 1; 2]) "insertion").
Proof.
  intros h. assert (h !! 0%nat = Some [3; 1; 2]) as Ha by reflexivity.
  split; [exact Ha|].
  exact (sort_refines defaultEnv h 0%nat [3; 1; 2] "insertion" Ha).
Defined.

(** An invariant that does not depend on the loop variable. *)
Lemma for_range_inv_any {S : Type} (I : S -> Prop) (body : Z -> S -> S) lo hi s :
  I s -> (forall k s', I s' -> I (body k s')) -> I (for_range lo hi body s).
Proof.
  intros Hs Hbody. unfold for_range.
  generalize (Z.to_nat (hi - lo)) as n. intros n. revert lo s Hs.
  induction n as [|n IH]; intros lo s Hs; [done|].
  cbn [iterate]. apply IH. by apply Hbody.
Qed.

(** ** Replaying a trace *)

(** A trace that replays: it starts with the snapshot of the input, and
    every further step holds the snapshot before it with the two recorded
    positions swapped.  The second argument is the last snapshot. *)
Inductive Replays (input : list Z) : list Step.t -> list Z -> Prop :=
| Replays_initial :
    Replays input [Step.mk input None 0] input
| Replays_swap steps a i j count :
    Replays input steps a ->
    Replays input (steps ++ [Step.mk (swap a i j) (Some (i, j)) count]) (swap a i j).

Section Replay.
Variable input : list Z.

(** The invariant of the swapping executors. *)
Definition replaying (st : Locals.t) : Prop :=
  Replays input (Locals.steps st) (Locals.sortedArray st).

Lemma replaying_tick st : replaying st -> replaying (tick st).
Proof. done. Qed.

Lemma replaying_swap st i j :
  replaying st -> replaying (push (update (fun a => swap a i j) st) i j).
Proof. intros H. by apply Replays_swap. Qed.

Lemma bubble_body_replaying j s :
  replaying (snd s) -> replaying (snd (bubble_body j s)).
Proof.
  destruct s as [swapped st]. unfold bubble_body. cbn [snd]. intros H.
  destruct (_ >? _); cbn [snd]; [by apply replaying_swap|done].
Qed.

Lemma bubble_outer_replaying fuel i st :
  replaying st -> replaying (bubble_outer fuel i st).
Proof.
  revert i st. induction fuel as [|fuel IH]; intros i st H; [done|].
  cbn [bubble_outer].
  assert (replaying (snd (bubble_pass i st))) as H'.
  { unfold bubble_pass.
    apply (for_range_inv_any (fun s => replaying (snd s))); [done|].
    intros k s' Hs'. by apply bubble_body_replaying. }
  destruct (bubble_pass i st) as [swapped st']. cbn [snd] in H'.
  destruct swapped; cbn [negb]; [by apply IH|done].
Qed.

Lemma selection_pass_replaying i st :
  replaying st -> replaying (selection_pass i st).
Proof.
  intros H. unfold selection_pass.
  assert (replaying (snd (for_range (i + 1) (len (Locals.sortedArray st))
                            selection_body (i, st)))) as H'.
  { apply (for_range_inv_any (fun s => replaying (snd s))); [done|].
    intros k [m s'] Hs'. unfold selection_body. by destruct (_ <? _). }
  destruct (for_range _ _ selection_body (i, st)) as [minIndex st']. cbn [snd] in H'.
  destruct (negb _); [by apply replaying_swap|done].
Qed.

Lemma partition_replaying st low high :
  replaying st -> replaying (snd (partition st low high)).
Proof.
  intros H. unfold partition.
  assert (replaying (snd (for_range low high
                            (partition_body (get (Locals.sortedArray st) high))
                            (low - 1, st)))) as H'.
  { apply (for_range_inv_any (fun s => replaying (snd s))); [done|].
    intros k [i s'] Hs'. unfold partition_body.
    destruct (_ <? _); [destruct (negb _)|]; cbn [snd] in *;
      [by apply replaying_swap|done..]. }
  destruct (for_range low high _ (low - 1, st)) as [i st']. cbn [snd] in *.
  destruct (negb _); [by apply replaying_swap|done].
Qed.

Lemma quickSortHelper_replaying st low high :
  replaying st -> replaying (quickSortHelper st low high).
Proof.
  remember (Z.to_nat (high - low)) as m eqn:Hm.
  revert st low high Hm. induction (lt_wf m) as [m _ IH].
  intros st low high Hm H. rewrite quickSortHelper_eq.
  destruct (Z.ltb_spec low high) as [Hlt|Hge]; [|done].
  pose proof (partition_index st low high Hlt) as Hp.
  pose proof (partition_replaying st low high H) as H1.
  destruct (partition st low high) as [p st1]. cbn [fst snd] in *.
  eapply (IH (Z.to_nat (high - (p + 1)))); [lia|done|].
  eapply (IH (Z.to_nat (p - 1 - low))); [lia|done..].
Qed.
End Replay.

Lemma Replays_last input steps a :
  Replays input steps a -> Step.array <$> last steps = Some a.
Proof. induction 1; [done|]. by rewrite last_snoc. Qed.

Lemma Replays_consecutive input steps a (k : nat) s t :
  Replays input steps a ->
  steps !! k = Some s -> steps !! S k = Some t ->
  exists i j, Step.swapIndices t = Some (i, j) /\
              Step.array t = swap (Step.array s) i j.
Proof.
  intros H. revert k s t. induction H as [|steps a i j count H IH]; intros k s t Hs Ht.
  - done.
  - pose proof (Replays_last _ _ _ H) as Hlast. rewrite last_lookup in Hlast.
    destruct (decide (S k < length steps)%nat) as [Hlt|Hge].
    + rewrite lookup_app_l in Hs, Ht by lia. by eapply IH.
    + pose proof (lookup_lt_Some _ _ _ Ht) as Hlen.
      rewrite length_app in Hlen. simpl in Hlen.
      assert (S k = length steps) as Hk by lia.
      rewrite lookup_app_l in Hs by lia.
      rewrite Hk, list_lookup_middle in Ht by done.
      replace (pred (length steps)) with k in Hlast by lia.
      rewrite Hs in Hlast. simplify_eq/=. by exists i, j.
Qed.

Lemma Replays_nonempty input steps a : Replays input steps a -> steps <> [].
Proof. destruct 1 as [|steps ? ? ? ? _]; [done|]. by destruct steps. Qed.

Lemma Replays_permutations input steps a :
  Replays input steps a ->
  Forall (touched_ok (len input)) (tail steps) ->
  Forall (fun s => Permutation (Step.array s) input) steps /\ Permutation a input.
Proof.
  induction 1 as [|steps a i j count H IH]; intros Hrest.
  - by repeat constructor.
  - assert (Forall (touched_ok (len input)) (tail steps) /\
            touched_ok (len input) (Step.mk (swap a i j) (Some (i, j)) count))
      as [Htail (i' & j' & Hij & Hi & Hj & _)].
    { destruct steps as [|s steps]; [by apply Replays_nonempty in H|].
      simpl in *. by apply Forall_app in Hrest as [? [? _]%Forall_cons]. }
    simplify_eq/=. destruct (IH Htail) as [Hsteps Ha].
    assert (len a = len input) as Hlen.
    { unfold len. by rewrite (Permutation_length Ha). }
    assert (Permutation (swap a i' j') input) as Hswap.
    { rewrite swap_perm by lia. done. }
    split; [|done]. apply Forall_app. split; [done|]. by repeat constructor.
Qed.

(** X7.  The traces of the three executors that only swap ([bubbleSort],
    [quickSort], [selectionSort]) replay, for every input: each step after
    the first holds the snapshot of the step before it with the two
    recorded positions swapped, so the animation of a step never needs more
    than its predecessor.  Every snapshot is therefore a permutation of the
    input. *)
Theorem swap_traces_replay :
  Forall (fun executor : list Z -> Result.t =>
            forall arr,
              (forall (k : nat) s t,
                 Result.steps (executor arr) !! k = Some s ->
                 Result.steps (executor arr) !! S k = Some t ->
                 exists i j, Step.swapIndices t = Some (i, j) /\
                             Step.array t = swap (Step.array s) i j) /\
              Forall (fun s => Permutation (Step.array s) arr)
                     (Result.steps (executor arr)))
         [bubbleSort; quickSort; selectionSort].
Proof.
  assert (forall arr r,
            (exists rest, Result.steps r = Step.mk arr None 0 :: rest /\
                          Forall (touched_ok (len arr)) rest) ->
            Replays arr (Result.steps r) (Result.sortedArray r) ->
            (forall (k : nat) s t,
               Result.steps r !! k = Some s ->
               Result.steps r !! S k = Some t ->
               exists i j, Step.swapIndices t = Some (i, j) /\
                           Step.array t = swap (Step.array s) i j) /\
            Forall (fun s => Permutation (Step.array s) arr) (Result.steps r)) as Hgen.
  { intros arr r (rest & Hsteps & Hrest) Hrep. split.
    - intros k s t. by apply (Replays_consecutive arr _ (Result.sortedArray r)).
    - apply (Replays_permutations arr _ _ Hrep). by rewrite Hsteps. }
  constructor; [|constructor; [|constructor; [|constructor]]]; intros arr;
    apply Hgen.
  - destruct (bubbleSort_sorts arr) as (st & -> & Hok & _).
    apply (epilogue_trace arr _ st Hok).
  - apply bubble_outer_replaying, Replays_initial.
  - destruct (quickSort_sorts arr) as (st & -> & Hok & _).
    apply (epilogue_trace arr _ st Hok).
  - apply quickSortHelper_replaying, Replays_initial.
  - destruct (selectionSort_sorts arr) as (st & -> & Hok & _).
    apply (epilogue_trace arr _ st Hok).
  - apply (for_range_inv_any (replaying arr)); [apply Replays_initial|].
    intros k s'. apply selection_pass_replaying.
Qed.

(** ** Counting comparisons *)

(** The counter and the number of steps, as integers. *)
Definition cmp (st : Locals.t) : Z := Z.of_nat (Locals.comparisonCount st).

Definition nsteps (st : Locals.t) : Z := Z.of_nat (length (Locals.steps st)).

Lemma cmp_tick st : cmp (tick st) = cmp st + 1.
Proof. unfold cmp, tick. simpl. lia. Qed.

Lemma cmp_push st i j : cmp (push st i j) = cmp st.
Proof. done. Qed.

Lemma cmp_update f st : cmp (update f st) = cmp st.
Proof. done. Qed.

Lemma nsteps_tick st : nsteps (tick st) = nsteps st.
Proof. done. Qed.

Lemma nsteps_push st i j : nsteps (push st i j) = nsteps st + 1.
Proof. unfold nsteps, push. simpl. rewrite length_app. simpl. lia. Qed.

Lemma nsteps_update f st : nsteps (update f st) = nsteps st.
Proof. done. Qed.

#[local] Hint Rewrite cmp_tick cmp_push cmp_update
  nsteps_tick nsteps_push nsteps_update len_swap len_set : locals.

(** *** selectionSort *)

Lemma selection_scan_count m j s :
  let s' := iterate m j selection_body s in
  cmp (snd s') = cmp (snd s) + Z.of_nat m /\
  Locals.steps (snd s') = Locals.steps (snd s) /\
  Locals.sortedArray (snd s') = Locals.sortedArray (snd s).
Proof.
  revert j s. induction m as [|m IH]; intros j [minIndex st]; cbn [iterate].
  - simpl. split_and!; [lia|done..].
  - specialize (IH (j + 1) (selection_body j (minIndex, st))).
    destruct IH as (Hc & Hs & Ha). rewrite Hc, Hs, Ha.
    unfold selection_body. destruct (_ <? _); cbn [snd];
      autorewrite with locals; split_and!; done || lia.
Qed.

Lemma selection_pass_count i st :
  let n := len (Locals.sortedArray st) in
  let st' := selection_pass i st in
  cmp st' = cmp st + Z.of_nat (Z.to_nat (n - (i + 1))) /\
  nsteps st <= nsteps st' <= nsteps st + 1 /\
  len (Locals.sortedArray st') = n.
Proof.
  cbv zeta. unfold selection_pass, for_range.
  pose proof (selection_scan_count
                (Z.to_nat (len (Locals.sortedArray st) - (i + 1))) (i + 1) (i, st))
    as (Hc & Hs & Ha).
  destruct (iterate _ _ selection_body (i, st)) as [minIndex st']. cbn [snd] in *.
  assert (nsteps st' = nsteps st) as Hn by (unfold nsteps; by rewrite Hs).
  destruct (negb _); autorewrite with locals; rewrite ?Hc, ?Hn, ?Ha;
    split_and!; done || lia.
Qed.

(** X8.  [selectionSort] makes exactly n(n-1)/2 comparisons on every array
    of length n, whatever its order, and records at most n-1 swaps. *)
Theorem selectionSort_counts arr :
  let n := len arr in
  let r := selectionSort arr in
  2 * Z.of_nat (Result.totalComparisons r) = n * (n - 1) /\
  Z.of_nat (length (Result.steps r)) <= Z.max 1 n.
Proof.
  cbv zeta. unfold selectionSort, epilogue.
  cbn [Result.totalComparisons Result.steps].
  change (Locals.sortedArray (prologue arr)) with arr.
  set (n := len arr). set (st0 := prologue arr).
  change (Z.of_nat (Locals.comparisonCount ?s)) with (cmp s).
  change (Z.of_nat (length (Locals.steps ?s))) with (nsteps s).
  destruct (Z.le_gt_cases 0 (n - 1)) as [Hn|Hn].
  - assert (len (Locals.sortedArray (for_range 0 (n - 1) selection_pass st0)) = n /\
            2 * cmp (for_range 0 (n - 1) selection_pass st0)
              = (n - 1) * (2 * n - 1 - (n - 1)) /\
            nsteps (for_range 0 (n - 1) selection_pass st0) <= 1 + (n - 1))
      as (_ & Hc & Hs).
    { apply (for_range_inv
               (fun i st => len (Locals.sortedArray st) = n /\
                            2 * cmp st = i * (2 * n - 1 - i) /\
                            nsteps st <= 1 + i)); [done| |].
      - unfold cmp, nsteps. simpl. split_and!; done || lia.
      - intros i st Hi (Hlen & Hc & Hs).
        pose proof (selection_pass_count i st) as (Hc' & Hs' & Hlen').
        cbv zeta in *. rewrite Hlen in *. rewrite Hc'. split_and!; [done| |lia].
        rewrite Z2Nat.id by lia. nia. }
    split; [nia|lia].
  - rewrite for_range_empty by lia. unfold cmp, nsteps. simpl.
    assert (n = 0) as -> by (pose proof (len_nonneg arr); lia). lia.
Qed.

(** *** Loops whose body compares once *)

(** What one comparison does to the counters: what the bodies of the inner
    loops of [bubbleSort] and [partition] have in common. *)
Definition compares_once (st st' : Locals.t) (m : Z) : Prop :=
  cmp st' = cmp st + m /\
  nsteps st <= nsteps st' <= nsteps st + m /\
  len (Locals.sortedArray st') = len (Locals.sortedArray st).

Lemma iterate_compares_once {S : Type} (proj : S -> Locals.t) body m j (s : S) :
  (forall k s, compares_once (proj s) (proj (body k s)) 1) ->
  compares_once (proj s) (proj (iterate m j body s)) (Z.of_nat m).
Proof.
  intros Hbody. revert j s. induction m as [|m IH]; intros j s; cbn [iterate].
  - unfold compares_once. lia.
  - destruct (IH (j + 1) (body j s)) as (Hc & Hs & Hl).
    destruct (Hbody j s) as (Hc1 & Hs1 & Hl1).
    unfold compares_once. rewrite Hc, Hl, Hc1, Hl1. lia.
Qed.

(** *** bubbleSort *)

Lemma bubble_body_count j s : compares_once (snd s) (snd (bubble_body j s)) 1.
Proof.
  destruct s as [swapped st]. unfold bubble_body, compares_once.
  destruct (_ >? _); cbn [snd]; autorewrite with locals; lia.
Qed.

Lemma bubble_pass_count i st :
  compares_once st (snd (bubble_pass i st))
    (Z.of_nat (Z.to_nat (len (Locals.sortedArray st) - 1 - i))).
Proof.
  unfold bubble_pass, for_range. rewrite Z.sub_0_r.
  apply (iterate_compares_once snd bubble_body _ 0 (false, st)), bubble_body_count.
Qed.

Lemma bubble_outer_count fuel i st :
  Z.of_nat fuel = len (Locals.sortedArray st) - 1 - i ->
  let st' := bubble_outer fuel i st in
  let m := Z.of_nat fuel in
  let d := cmp st' - cmp st in
  m <= d /\ 2 * d <= m * (m + 1) /\ nsteps st <= nsteps st' <= nsteps st + d.
Proof.
  cbv zeta. revert i st. induction fuel as [|fuel IH]; intros i st Hfuel.
  - simpl. lia.
  - cbn [bubble_outer]. pose proof (bubble_pass_count i st) as (Hc & Hs & Hl).
    destruct (bubble_pass i st) as [swapped st1]. cbn [snd] in *.
    rewrite <- Hfuel, Nat2Z.id in Hc, Hs. destruct (negb swapped).
    + nia.
    + specialize (IH (i + 1) st1). rewrite Hl in IH.
      destruct IH as (Hm & Hd & Hs'); [lia|]. nia.
Qed.

(** X9.  On an array of length n, [bubbleSort] makes at least n-1 and at
    most n(n-1)/2 comparisons, and it records at most one step per
    comparison after the initial snapshot. *)
Theorem bubbleSort_counts arr :
  let n := len arr in
  let r := bubbleSort arr in
  let total := Z.of_nat (Result.totalComparisons r) in
  n - 1 <= total /\ 2 * total <= n * (n - 1) /\
  Z.of_nat (length (Result.steps r)) <= total + 1.
Proof.
  cbv zeta. unfold bubbleSort, epilogue.
  cbn [Result.totalComparisons Result.steps].
  change (Locals.sortedArray (prologue arr)) with arr.
  set (n := len arr). set (st0 := prologue arr).
  change (Z.of_nat (Locals.comparisonCount ?s)) with (cmp s).
  change (Z.of_nat (length (Locals.steps ?s))) with (nsteps s).
  assert (cmp st0 = 0 /\ nsteps st0 = 1) as [Hc0 Hs0] by done.
  destruct (Z.le_gt_cases 0 (n - 1)) as [Hn|Hn].
  - pose proof (bubble_outer_count (Z.to_nat (n - 1 - 0)) 0 st0) as H.
    cbv zeta in H. destruct H as (Hm & Hd & Hs).
    { change (Locals.sortedArray st0) with arr. fold n. lia. }
    rewrite Z2Nat.id in * by lia. nia.
  - replace (Z.to_nat (n - 1 - 0)) with 0%nat by lia. cbn [bubble_outer].
    assert (n = 0) as -> by (pose proof (len_nonneg arr); lia). lia.
Qed.

(** *** insertionSort *)

Lemma insertion_while_count k key st :
  let st' := snd (insertion_while k key st) in
  let d := cmp st' - cmp st in
  ((0 < k)%nat -> 1 <= d) /\ d <= Z.of_nat k /\
  nsteps st <= nsteps st' <= nsteps st + d /\
  len (Locals.sortedArray st') = len (Locals.sortedArray st).
Proof.
  cbv zeta. revert st. induction k as [|k IH]; intros st; cbn [insertion_while].
  - simpl. split_and!; lia.
  - destruct (_ >? key).
    + match goal with |- context [insertion_while k key ?s] => specialize (IH s) end.
      destruct IH as (_ & Hd & Hs & Hl). rewrite Hl.
      autorewrite with locals in *. split_and!; lia.
    + cbn [snd]. autorewrite with locals. split_and!; lia.
Qed.

Lemma insertion_pass_count i st :
  1 <= i ->
  let st' := insertion_pass i st in
  let d := cmp st' - cmp st in
  1 <= d <= i /\ nsteps st <= nsteps st' <= nsteps st + d + 1 /\
  len (Locals.sortedArray st') = len (Locals.sortedArray st).
Proof.
  intros Hi. cbv zeta. unfold insertion_pass.
  pose proof (insertion_while_count (Z.to_nat (i - 1 + 1))
                (get (Locals.sortedArray st) i) st) as (Hd1 & Hd & Hs & Hl).
  destruct (insertion_while _ _ st) as [j st1]. cbn [snd] in *.
  destruct (negb _); autorewrite with locals; rewrite Hl; split_and!; lia.
Qed.

(** X10.  On an array of length n, [insertionSort] makes at least n-1 and
    at most n(n-1)/2 comparisons, and its trace has at most n entries more
    than it made comparisons. *)
Theorem insertionSort_counts arr :
  let n := len arr in
  let r := insertionSort arr in
  let total := Z.of_nat (Result.totalComparisons r) in
  n - 1 <= total /\ 2 * total <= n * (n - 1) /\
  Z.of_nat (length (Result.steps r)) <= total + Z.max 1 n.
Proof.
  cbv zeta. unfold insertionSort, epilogue.
  cbn [Result.totalComparisons Result.steps].
  change (Locals.sortedArray (prologue arr)) with arr.
  set (n := len arr). set (st0 := prologue arr).
  change (Z.of_nat (Locals.comparisonCount ?s)) with (cmp s).
  change (Z.of_nat (length (Locals.steps ?s))) with (nsteps s).
  assert (cmp st0 = 0 /\ nsteps st0 = 1) as [Hc0 Hs0] by done.
  destruct (Z.le_gt_cases 1 n) as [Hn|Hn].
  - enough (len (Locals.sortedArray (for_range 1 n insertion_pass st0)) = n /\
            n - 1 <= cmp (for_range 1 n insertion_pass st0) /\
            2 * cmp (for_range 1 n insertion_pass st0) <= n * (n - 1) /\
            nsteps (for_range 1 n insertion_pass st0)
              <= cmp (for_range 1 n insertion_pass st0) + n) by lia.
    apply (for_range_inv
             (fun i st => len (Locals.sortedArray st) = n /\
                          i - 1 <= cmp st /\ 2 * cmp st <= i * (i - 1) /\
                          nsteps st <= cmp st + i)); [done|split_and!; done || lia|].
    intros i st Hi (Hlen & Hlo & Hhi & Hs).
    pose proof (insertion_pass_count i st) as (Hd & Hs' & Hl); [lia|].
    rewrite Hl. split_and!; [done|lia|nia|lia].
  - rewrite for_range_empty by lia.
    assert (n = 0) as -> by (pose proof (len_nonneg arr); lia). lia.
Qed.

(** *** quickSort *)

Lemma partition_body_count pivot j s :
  compares_once (snd s) (snd (partition_body pivot j s)) 1.
Proof.
  destruct s as [i st]. unfold partition_body, compares_once.
  destruct (_ <? pivot); [destruct (negb _)|]; cbn [snd];
    autorewrite with locals; lia.
Qed.

Lemma partition_count st low high :
  let st' := snd (partition st low high) in
  cmp st' = cmp st + Z.of_nat (Z.to_nat (high - low)) /\
  nsteps st <= nsteps st' <= nsteps st + Z.of_nat (Z.to_nat (high - low)) + 1 /\
  len (Locals.sortedArray st') = len (Locals.sortedArray st).
Proof.
  cbv zeta. unfold partition, for_range.
  pose proof (iterate_compares_once snd
                (partition_body (get (Locals.sortedArray st) high))
                (Z.to_nat (high - low)) low (low - 1, st)
                (partition_body_count _)) as (Hc & Hs & Hl).
  destruct (iterate _ _ _ _) as [i st1]. cbn [snd] in *.
  destruct (negb _); autorewrite with locals; rewrite Hc, Hl; lia.
Qed.

Lemma quickSortHelper_count st low high :
  low <= high + 1 ->
  let st' := quickSortHelper st low high in
  let m := high - low + 1 in
  let d := cmp st' - cmp st in
  0 <= d /\ m - 1 <= d /\ 2 * d <= m * (m - 1) /\
  nsteps st <= nsteps st' <= nsteps st + d + Z.max 0 (m - 1).
Proof.
  cbv zeta. remember (Z.to_nat (high - low)) as m eqn:Hm.
  revert st low high Hm. induction (lt_wf m) as [m _ IH].
  intros st low high Hm Hle. rewrite quickSortHelper_eq.
  destruct (Z.ltb_spec low high) as [Hlt|Hge]; [|split_and!; nia || lia].
  pose proof (partition_index st low high Hlt) as Hp.
  pose proof (partition_count st low high) as (Hc & Hs & _).
  destruct (partition st low high) as [p st1]. cbn [fst snd] in *.
  rewrite Z2Nat.id in Hc, Hs by lia.
  pose proof (IH (Z.to_nat (p - 1 - low)) ltac:(lia) st1 low (p - 1) eq_refl ltac:(lia))
    as (Hz1 & _ & Hd1 & Hs1).
  set (st2 := quickSortHelper st1 low (p - 1)) in *.
  pose proof (IH (Z.to_nat (high - (p + 1))) ltac:(lia) st2 (p + 1) high eq_refl ltac:(lia))
    as (Hz2 & _ & Hd2 & Hs2).
  set (st3 := quickSortHelper st2 (p + 1) high) in *.
  split_and!; [lia|lia|nia|lia|lia].
Qed.

(** X11.  On an array of length n, [quickSort] makes at least n-1 and at
    most n(n-1)/2 comparisons, and its trace has at most n entries more than
    it made comparisons. *)
Theorem quickSort_counts arr :
  let n := len arr in
  let r := quickSort arr in
  let total := Z.of_nat (Result.totalComparisons r) in
  n - 1 <= total /\ 2 * total <= n * (n - 1) /\
  Z.of_nat (length (Result.steps r)) <= total + Z.max 1 n.
Proof.
  cbv zeta. unfold quickSort, epilogue.
  cbn [Result.totalComparisons Result.steps].
  change (Locals.sortedArray (prologue arr)) with arr.
  set (n := len arr). set (st0 := prologue arr).
  change (Z.of_nat (Locals.comparisonCount ?s)) with (cmp s).
  change (Z.of_nat (length (Locals.steps ?s))) with (nsteps s).
  assert (cmp st0 = 0 /\ nsteps st0 = 1) as [Hc0 Hs0] by done.
  pose proof (len_nonneg arr). fold n in H.
  pose proof (quickSortHelper_count st0 0 (n - 1)) as Hq.
  cbv zeta in Hq. destruct Hq as (_ & Hlo & Hhi & Hs); [lia|].
  replace (n - 1 - 0 + 1) with n in * by lia. lia.
Qed.

(** *** The best case *)

Lemma bubble_pass_sorted arr st :
  isAlreadySorted arr = true ->
  Locals.sortedArray st = arr ->
  let s := bubble_pass 0 st in
  fst s = false /\ Locals.steps (snd s) = Locals.steps st /\
  Locals.sortedArray (snd s) = arr /\
  cmp (snd s) = cmp st + Z.max 0 (len arr - 1).
Proof.
  intros Hsorted Harr. cbv zeta.
  pose proof (proj1 (isAlreadySorted_adjacent arr) Hsorted) as Hadj. clear Hsorted.
  rename Hadj into Hsorted.
  unfold bubble_pass. rewrite Harr, Z.sub_0_r.
  destruct (Z.le_gt_cases 0 (len arr - 1)) as [Hn|Hn].
  - replace (Z.max 0 (len arr - 1)) with (len arr - 1) by lia.
    apply (for_range_inv
             (fun j s => fst s = false /\ Locals.steps (snd s) = Locals.steps st /\
                         Locals.sortedArray (snd s) = arr /\
                         cmp (snd s) = cmp st + j));
      [done|cbn [fst snd]; split_and!; done || lia|].
    intros j [swapped st1] Hj (Hsw & Hsteps & Ha & Hc). cbn [fst snd] in *.
    unfold bubble_body. rewrite sortedArray_tick, Ha.
    specialize (Hsorted (j + 1)). replace (j + 1 - 1) with j in Hsorted by lia.
    destruct (Z.gtb_spec (get arr j) (get arr (j + 1))) as [Hgt|_]; [lia|].
    cbn [fst snd]. autorewrite with locals. split_and!; done || lia.
  - rewrite for_range_empty by lia. cbn [fst snd]. split_and!; done || lia.
Qed.

Lemma insertion_pass_sorted arr i st :
  isAlreadySorted arr = true ->
  1 <= i < len arr ->
  Locals.sortedArray st = arr ->
  let st' := insertion_pass i st in
  Locals.steps st' = Locals.steps st /\ Locals.sortedArray st' = arr /\
  cmp st' = cmp st + 1.
Proof.
  intros Hsorted Hi Harr. cbv zeta.
  pose proof (proj1 (isAlreadySorted_adjacent arr) Hsorted) as Hadj. clear Hsorted.
  rename Hadj into Hsorted.
  unfold insertion_pass. rewrite Harr.
  replace (Z.to_nat (i - 1 + 1)) with (Datatypes.S (Z.to_nat (i - 1))) by lia.
  cbn [insertion_while]. rewrite sortedArray_tick, Harr, Z2Nat.id by lia.
  specialize (Hsorted i ltac:(lia)).
  destruct (Z.gtb_spec (get arr (i - 1)) (get arr i)) as [Hgt|_]; [lia|].
  replace (i - 1 + 1) with i by lia. rewrite Z.eqb_refl. cbn [negb].
  unfold update, tick, cmp. cbn. rewrite Harr, set_get_id. split_and!; done || lia.
Qed.

(** X12.  The best case of the executors with an early exit: called on an
    array that is already in order, [bubbleSort] and [insertionSort] make
    n-1 comparisons (none on the empty array), leave the array as it is and
    record nothing but the initial snapshot. *)
Theorem early_exit_best_case arr :
  isAlreadySorted arr = true ->
  Forall (fun executor : list Z -> Result.t =>
            let r := executor arr in
            Result.steps r = [Step.mk arr None 0%nat] /\
            Result.sortedArray r = arr /\
            Result.totalComparisons r = Z.to_nat (len arr - 1))
         [bubbleSort; insertionSort].
Proof.
  intros Hsorted. constructor; [|constructor; [|constructor]]; cbv zeta.
  - unfold bubbleSort, epilogue.
    cbn [Result.totalComparisons Result.steps Result.sortedArray].
    change (Locals.sortedArray (prologue arr)) with arr.
    destruct (Z.to_nat (len arr - 1 - 0)) as [|fuel] eqn:Hfuel; cbn [bubble_outer].
    + split_and!; [done..|]. simpl. lia.
    + pose proof (bubble_pass_sorted arr (prologue arr) Hsorted eq_refl)
        as (Hsw & Hsteps & Ha & Hc).
      destruct (bubble_pass 0 (prologue arr)) as [swapped st1]. cbn [fst snd] in *.
      subst swapped. cbn [negb]. split_and!; [done..|].
      unfold cmp in Hc. simpl in Hc. lia.
  - unfold insertionSort, epilogue.
    cbn [Result.totalComparisons Result.steps Result.sortedArray].
    change (Locals.sortedArray (prologue arr)) with arr.
    destruct (Z.le_gt_cases 1 (len arr)) as [Hn|Hn].
    + enough (Locals.steps (for_range 1 (len arr) insertion_pass (prologue arr))
                = [Step.mk arr None 0%nat] /\
              Locals.sortedArray (for_range 1 (len arr) insertion_pass (prologue arr))
                = arr /\
              cmp (for_range 1 (len arr) insertion_pass (prologue arr))
                = len arr - 1) as (? & ? & Hc)
        by (unfold cmp in Hc; split_and!; done || lia).
      apply (for_range_inv
               (fun i st => Locals.steps st = [Step.mk arr None 0%nat] /\
                            Locals.sortedArray st = arr /\ cmp st = i - 1));
        [done|done|].
      intros i st Hi (Hsteps & Ha & Hc).
      pose proof (insertion_pass_sorted arr i st Hsorted Hi Ha) as (Hs' & Ha' & Hc').
      rewrite Hs', Ha', Hc'. split_and!; done || lia.
    + rewrite for_range_empty by lia. split_and!; [done..|]. simpl. lia.
Qed.

Lemma early_exit_best_case_witness :
  isAlreadySorted [1; 2; 2; 5] = true /\
  Forall (fun executor : list Z -> Result.t =>
            let r := executor [1; 2; 2; 5] in
            Result.steps r = [Step.mk [1; 2; 2; 5] None 0%nat] /\
            Result.sortedArray r = [1; 2; 2; 5] /\
            Result.totalComparisons r = Z.to_nat (len [1; 2; 2; 5] - 1))
         [bubbleSort; insertionSort].
Proof. split; [reflexivity|apply early_exit_best_case; reflexivity]. Defined.

(** ** The first version of the bubble sort *)

(** The first version of the server has its own [bubbleSort]: no early
    exit, no counter, and a trace of bare snapshots.  The class's
    [bubbleSort] computes the same snapshots and the same array: the passes
    the early exit skips would swap nothing. *)
Section LegacyBubble.

Definition legacy_sim (lst : Legacy.Locals) (st : Locals.t) : Prop :=
  Legacy.steps lst = map Step.array (Locals.steps st) /\
  Legacy.sortedArray lst = Locals.sortedArray st.

Lemma legacy_body_sim j lst s :
  legacy_sim lst (snd s) ->
  legacy_sim (Legacy.bubble_body j lst) (snd (bubble_body j s)).
Proof.
  destruct s as [swapped st], lst as [lsteps a]. unfold legacy_sim.
  cbn [snd Legacy.steps Legacy.sortedArray]. intros [-> ->].
  unfold Legacy.bubble_body, bubble_body.
  cbn [Legacy.steps Legacy.sortedArray]. rewrite sortedArray_tick.
  destruct (_ >? _); cbn [snd Legacy.steps Legacy.sortedArray]; [|done].
  unfold push, update, tick. cbn. by rewrite map_app.
Qed.

Lemma legacy_inner_sim m j lst s :
  legacy_sim lst (snd s) ->
  legacy_sim (iterate m j Legacy.bubble_body lst) (snd (iterate m j bubble_body s)).
Proof.
  revert j lst s. induction m as [|m IH]; intros j lst s H; cbn [iterate]; [done|].
  by apply IH, legacy_body_sim.
Qed.

Lemma legacy_pass_sim i lst st :
  legacy_sim lst st ->
  legacy_sim (Legacy.bubble_pass i lst) (snd (bubble_pass i st)).
Proof.
  intros H. unfold Legacy.bubble_pass, bubble_pass, for_range.
  destruct H as [Hs Ha]. rewrite Ha. by apply legacy_inner_sim.
Qed.

(** A pass that leaves [swapped] false found every pair it looked at in
    order, and changed nothing. *)
Lemma bubble_pass_quiet i st :
  fst (bubble_pass i st) = false ->
  Locals.sortedArray (snd (bubble_pass i st)) = Locals.sortedArray st /\
  forall j, 0 <= j < len (Locals.sortedArray st) - 1 - i ->
            get (Locals.sortedArray st) j <= get (Locals.sortedArray st) (j + 1).
Proof.
  unfold bubble_pass. set (a := Locals.sortedArray st). set (hi := len a - 1 - i).
  destruct (Z.le_gt_cases 0 hi) as [Hhi|Hhi].
  - apply (for_range_inv
             (fun j s => fst s = false ->
                         Locals.sortedArray (snd s) = a /\
                         forall k, 0 <= k < j -> get a k <= get a (k + 1))); [done| |].
    + intros _. split; [done|]. intros k Hk. lia.
    + intros j [swapped st1] Hj IH. unfold bubble_body.
      rewrite sortedArray_tick.
      destruct (Z.gtb_spec (get (Locals.sortedArray st1) j)
                  (get (Locals.sortedArray st1) (j + 1))) as [Hgt|Hle];
        cbn [fst snd]; [done|].
      intros ->. destruct (IH eq_refl) as [Ha Hk]. cbn [snd] in Ha.
      rewrite sortedArray_tick. split; [done|].
      intros k Hk'. destruct (decide (k = j)) as [->|Hne].
      * by rewrite <- Ha.
      * apply Hk. lia.
  - rewrite for_range_empty by lia. intros _. split; [done|]. intros j Hj. lia.
Qed.

(** On pairs in order the first version's passes do nothing. *)
Lemma legacy_inner_quiet m j lst :
  0 <= j ->
  (forall k, j <= k < j + Z.of_nat m ->
             get (Legacy.sortedArray lst) k <= get (Legacy.sortedArray lst) (k + 1)) ->
  iterate m j Legacy.bubble_body lst = lst.
Proof.
  revert j. induction m as [|m IH]; intros j Hj H; cbn [iterate]; [done|].
  unfold Legacy.bubble_body at 2.
  destruct (Z.gtb_spec (get (Legacy.sortedArray lst) j)
              (get (Legacy.sortedArray lst) (j + 1))) as [Hgt|_].
  - specialize (H j). lia.
  - apply IH; [lia|]. intros k Hk. apply H. lia.
Qed.

Lemma legacy_outer_quiet fuel i0 i lst :
  i0 <= i ->
  (forall k, 0 <= k < len (Legacy.sortedArray lst) - 1 - i0 ->
             get (Legacy.sortedArray lst) k <= get (Legacy.sortedArray lst) (k + 1)) ->
  iterate fuel i Legacy.bubble_pass lst = lst.
Proof.
  revert i. induction fuel as [|fuel IH]; intros i Hi H; cbn [iterate]; [done|].
  assert (Legacy.bubble_pass i lst = lst) as ->.
  { unfold Legacy.bubble_pass, for_range. apply legacy_inner_quiet; [done|].
    intros k Hk. apply H. lia. }
  apply IH; [lia|done].
Qed.

Lemma legacy_outer_sim fuel i lst st :
  legacy_sim lst st ->
  legacy_sim (iterate fuel i Legacy.bubble_pass lst) (bubble_outer fuel i st).
Proof.
  revert i lst st. induction fuel as [|fuel IH]; intros i lst st H; [done|].
  cbn [iterate bubble_outer].
  pose proof (legacy_pass_sim i lst st H) as H1.
  pose proof (bubble_pass_quiet i st) as Hquiet.
  destruct (bubble_pass i st) as [swapped st1]. cbn [fst snd] in *.
  destruct swapped; cbn [negb]; [by apply IH|].
  destruct (Hquiet eq_refl) as [Ha Hk]. destruct H1 as [Hs1 Ha1].
  rewrite (legacy_outer_quiet fuel i (i + 1)); [done|lia|].
  rewrite Ha1, Ha. done.
Qed.
End LegacyBubble.

(** X13.  The class's [bubbleSort] and the [bubbleSort] of the first
    version of the server compute the same thing: the snapshots of the
    class's trace are the first version's [steps], in order, and the two
    sorted arrays are equal.  The early exit of the class's version only
    skips passes that would swap nothing. *)
Theorem legacy_bubbleSort_same_snapshots arr :
  Legacy.bubbleSort arr =
    (map Step.array (Result.steps (bubbleSort arr)),
     Result.sortedArray (bubbleSort arr)).
Proof.
  unfold Legacy.bubbleSort, bubbleSort, epilogue, for_range.
  cbn [Result.steps Result.sortedArray app Legacy.sortedArray].
  change (Locals.sortedArray (prologue arr)) with arr.
  pose proof (legacy_outer_sim (Z.to_nat (len arr - 1 - 0)) 0
                (Legacy.mk [arr] arr) (prologue arr)) as [Hs Ha]; [done|].
  by rewrite <- Hs, <- Ha.
Qed.
